(** * Winternitz-Lamport-Diffie one-time signatures (package [wots])

    A shallow embedding of [wots.go] and of the superseded API it replaced,
    with the properties of the scheme proved over it.

    Conventions of the embedding.

    - A byte is [Init.Byte.byte]; [byte.unsigned] reads it as a number in
      [0, 256) and [byte.of_Z] is Go's conversion [uint8(x)] (low 8 bits).
    - A [[]byte] is a [list byte]; a nil slice is the empty list.  Lengths,
      indices and sizes are [nat]: they measure byte strings held in memory
      and stay far below the range of Go's 64-bit [int].  The one [int] that
      Go computes by subtraction, the [times] argument of [hashBlock], is a
      [Z].
    - A Go call either returns, panics (index or slice bound out of range)
      or never returns: the type [exec].  A pair [(value, error)] returned by
      a Go function is a [go_result].
    - [hash.Hash] is modelled by the digest function it computes and the
      bytes written since the last [Reset]; [io.Reader], as used through
      [io.ReadFull], by a state and a function that fills a buffer or fails. *)

From Stdlib Require Import ZArith List Lia Bool.
From stdpp Require Import base list.
From coqutil Require Import Byte.

(** ** Outcomes of a Go call *)

Inductive exec (A : Type) : Type :=
| Done (a : A)
| Panic
| Diverge.

Arguments Done {A} a.
Arguments Panic {A}.
Arguments Diverge {A}.

#[global] Instance exec_ret : MRet exec := fun _ a => Done a.

#[global] Instance exec_bind : MBind exec := fun _ _ f m =>
  match m with
  | Done a => f a
  | Panic => Panic
  | Diverge => Diverge
  end.

(** The three error kinds of the package.  [InvalidParameter] is
    [errors.New("wots: wrong hash output size")], [InvalidKeySize] is
    [errors.New("wots: private key size doesn't match the scheme")] and
    [RandomSourceFailure] is whatever error [io.ReadFull] returned. *)
Inductive error : Type :=
| InvalidParameter
| InvalidKeySize
| RandomSourceFailure.

Inductive go_result (A : Type) : Type :=
| Ok (a : A)
| Err (e : error).

Arguments Ok {A} a.
Arguments Err {A} e.

(** ** Slices

    A slice expression is checked against the length of the slice.  Go checks
    [l[:n]] against the capacity, which is the length for every slice the
    package makes itself or cuts from its arguments on the paths studied
    here. *)

Definition bytes : Type := list byte.

(** [l[:n]] *)
Definition slice_to (l : bytes) (n : nat) : exec bytes :=
  if (n <=? length l) then Done (take n l) else Panic.

(** [l[n:]] *)
Definition slice_from (l : bytes) (n : nat) : exec bytes :=
  if (n <=? length l) then Done (drop n l) else Panic.

(** [l[i:j]] *)
Definition slice (l : bytes) (i j : nat) : exec bytes :=
  if ((i <=? j) && (j <=? length l))%bool
  then Done (take (j - i) (drop i l)) else Panic.

(** [x := l[i]] *)
Definition index (l : bytes) (i : nat) : exec byte :=
  match l !! i with
  | Some x => Done x
  | None => Panic
  end.

(** [l[i] = x] *)
Definition store (l : bytes) (i : nat) (x : byte) : exec bytes :=
  if (i <? length l) then Done (<[i := x]> l) else Panic.

(** [copy(dst, src)]: the first [min(len(dst), len(src))] bytes of [src]
    overwrite those of [dst]. *)
Definition copy (dst src : bytes) : bytes :=
  take (length dst) src ++ drop (length src) dst.

(** [for i := range buf { body }], started at index [i] with [n] indices to
    go. *)
Fixpoint for_range {St : Type} (i n : nat) (body : nat -> St -> exec St)
  (s : St) : exec St :=
  match n with
  | O => Done s
  | S n' => s' ← body i s; for_range (S i) n' body s'
  end.

(** [bytes.Equal] *)
Fixpoint bytes_Equal (a b : bytes) : bool :=
  match a, b with
  | [], [] => true
  | x :: a', y :: b' => Byte.eqb x y && bytes_Equal a' b'
  | _, _ => false
  end.

(** ** The hash interface

    A [HashFunc] is what the package receives as [func() hash.Hash]: the
    output size [Size()] and the digest of a written byte string.  The
    contract of [hash.Hash], that [Sum] appends exactly [Size()] bytes, is the
    field [digest_Size]. *)
Record HashFunc : Type := {
  Size : nat;
  digest : bytes -> bytes;
  digest_Size : forall m, length (digest m) = Size
}.

(** A [hash.Hash] value: its algorithm and the bytes written since the last
    [Reset]. *)
Record Hash : Type := {
  alg : HashFunc;
  written : bytes
}.

(** Calling the factory: [h()]. *)
Definition New (f : HashFunc) : Hash := {| alg := f; written := [] |}.

Definition Reset (h : Hash) : Hash := {| alg := alg h; written := [] |}.

Definition Write (h : Hash) (p : bytes) : Hash :=
  {| alg := alg h; written := written h ++ p |}.

(** [h.Sum(b)] appends the digest to [b] and leaves [h] as it is. *)
Definition Sum (h : Hash) (b : bytes) : bytes :=
  b ++ digest (alg h) (written h).

(** ** The random source

    [fill rd n] is [io.ReadFull(rd, buf)] on a buffer of [n > 0] bytes: the
    bytes read, or [None] when the reader returned an error first, and the
    reader afterwards. *)
Class Reader (R : Type) : Type := {
  fill : R -> nat -> option bytes * R;
  fill_length : forall rd n bs rd', fill rd n = (Some bs, rd') -> length bs = n
}.

(** [io.ReadFull] returns at once, without an error, on an empty buffer. *)
Definition io_ReadFull {R} `{Reader R} (rd : R) (n : nat) : option bytes * R :=
  match n with
  | O => (Some [], rd)
  | S _ => fill rd n
  end.

(** ** hashBlock *)

(** The loop of [hashBlock], [n] iterations to go. *)
Fixpoint hashBlock_loop (n : nat) (h : Hash) (out : bytes) : bytes * Hash :=
  match n with
  | O => (out, h)
  | S n' =>
      let h1 := Reset h in
      let h2 := Write h1 out in
      let out' := Sum h2 (take 0 out) in
      hashBlock_loop n' h2 out'
  end.

(** [hashBlock(h, in, times)], with the hash object as the call leaves it. *)
Definition hashBlock (h : Hash) (in_ : bytes) (times : Z) : bytes * Hash :=
  hashBlock_loop (Z.to_nat times) h ([] ++ in_).

(** ** messageDigest *)

(** Go's [uint16] arithmetic. *)
Definition u16 (z : Z) : Z := (z mod 65536)%Z.

(** [for i, m := range msg[:rlen] { tmp[i] = m ^ r[i] }], at index [i] with
    [ms] the bytes still to visit. *)
Fixpoint xor_block (i : nat) (ms r tmp : bytes) : exec bytes :=
  match ms with
  | [] => Done tmp
  | m :: ms' =>
      ri ← index r i;
      tmp' ← store tmp i (byte.xor m ri);
      xor_block (S i) ms' r tmp'
  end.

(** [for len(msg) >= rlen { ... }]: the loop over the full blocks.  Nothing
    in the source bounds the number of iterations, so the embedding counts
    them down from [fuel] and reports [Diverge] when the count runs out. *)
Fixpoint block_loop (fuel : nat) (h : Hash) (r tmp msg : bytes)
  : exec (Hash * bytes * bytes) :=
  if (length r <=? length msg) then
    match fuel with
    | O => Diverge
    | S fuel' =>
        blk ← slice_to msg (length r);
        tmp' ← xor_block 0 blk r tmp;
        let h' := Write h tmp' in
        msg' ← slice_from msg (length r);
        block_loop fuel' h' r tmp' msg'
    end
  else Done (h, tmp, msg).

(** [for _, v := range d { sum += 256 - uint16(v) }] *)
Definition checksum (d : bytes) : Z :=
  fold_left (fun sum v => u16 (sum + u16 (256 - byte.unsigned v))%Z) d 0%Z.

(** [messageDigest(h, r, msg)] with the block loop given [fuel] turns. *)
Definition messageDigest_fuel (fuel : nat) (h : Hash) (r msg : bytes)
  : exec bytes :=
  let h := Write h r in
  let rlen := length r in
  let tmp := replicate rlen Byte.x00 in
  '(h, tmp, msg) ← block_loop fuel h r tmp msg;
  tmp ← for_range 0 (length tmp) (fun i t => store t i Byte.x00) tmp;
  let tmp := copy tmp msg in
  tmp ← store tmp (length msg) Byte.x80;
  tmp ← for_range 0 (length tmp)
          (fun i t => ti ← index t i; ri ← index r i;
                      store t i (byte.xor ti ri)) tmp;
  let h := Write h tmp in
  tmp ← store tmp 0 (byte.of_Z (Z.shiftr (Z.of_nat rlen) 8));
  tmp ← store tmp 1 (byte.of_Z (Z.of_nat rlen));
  two ← slice_to tmp 2;
  let h := Write h two in
  let d := Sum h [] in
  let sum := checksum d in
  Done (d ++ [byte.of_Z (Z.shiftr sum 8); byte.of_Z sum]).

(** [messageDigest(h, r, msg)].  One turn of the block loop per byte of
    [msg], and one to spare, is as good as any larger number
    ([messageDigest_fuel_enough]). *)
Definition messageDigest (h : Hash) (r msg : bytes) : exec bytes :=
  messageDigest_fuel (S (length msg)) h r msg.

(** ** Schemes *)

Section Scheme.

Context {R : Type} `{Reader R}.

Record Scheme : Type := {
  digestSize : nat;
  blockSize : nat;
  pubkeySize : nat;
  chainFunc : HashFunc;
  hashFunc : HashFunc;
  rand : R
}.

Definition NewScheme2 (h chain : HashFunc) (rd : R) : Scheme :=
  {| digestSize := Size h;
     blockSize := Size chain;
     pubkeySize := Size h;
     chainFunc := chain;
     hashFunc := h;
     rand := rd |}.

Definition NewScheme (h : HashFunc) (rd : R) : Scheme := NewScheme2 h h rd.

Definition PrivateKeySize (s : Scheme) : nat :=
  ((digestSize s + 2) * blockSize s).

Definition PublicKeySize (s : Scheme) : nat := pubkeySize s.

Definition SignatureSize (s : Scheme) : nat :=
  ((digestSize s + 2) * blockSize s + digestSize s).

Definition PublicKey : Type := bytes.
Definition PrivateKey : Type := bytes.

(** The loop of [PublicKeyFromPrivate],
    [for i := 0; i < len(privateKey); i += s.blockSize], from index [i]. *)
Fixpoint pubkey_loop (fuel : nat) (s : Scheme) (keyHash blockHash : Hash)
  (privateKey : PrivateKey) (i : nat) : exec (Hash * Hash) :=
  if (i <? length privateKey) then
    match fuel with
    | O => Diverge
    | S fuel' =>
        seg ← slice privateKey i (i + blockSize s);
        let '(out, blockHash') := hashBlock blockHash seg 256%Z in
        pubkey_loop fuel' s (Write keyHash out) blockHash' privateKey
          (i + blockSize s)
    end
  else Done (keyHash, blockHash).

Definition PublicKeyFromPrivate (s : Scheme) (privateKey : PrivateKey)
  : exec (go_result PublicKey) :=
  if negb (length privateKey =? PrivateKeySize s) then
    Done (Err InvalidKeySize)
  else
    let keyHash := New (hashFunc s) in
    let blockHash := New (chainFunc s) in
    '(keyHash, _) ← pubkey_loop (S (length privateKey)) s keyHash blockHash
                      privateKey 0;
    Done (Ok (Sum keyHash [])).

(** [GenerateKeyPair] returns its Go result and the reader as it left it. *)
Definition GenerateKeyPair (s : Scheme)
  : exec (go_result (PrivateKey * PublicKey) * R) :=
  if ((digestSize s <? 16) || (128 <? digestSize s))%bool then
    Done (Err InvalidParameter, rand s)
  else
    match io_ReadFull (rand s) (PrivateKeySize s) with
    | (None, rd) => Done (Err RandomSourceFailure, rd)
    | (Some privateKey, rd) =>
        pk ← PublicKeyFromPrivate s privateKey;
        match pk with
        | Err e => Done (Err e, rd)
        | Ok publicKey => Done (Ok (privateKey, publicKey), rd)
        end
    end.

(** [for _, v := range messageDigest(...)] of [Sign]. *)
Fixpoint sign_loop (s : Scheme) (blockHash : Hash) (sig : bytes)
  (privateKey : PrivateKey) (d : bytes) : exec bytes :=
  match d with
  | [] => Done sig
  | v :: d' =>
      seg ← slice_to privateKey (blockSize s);
      let '(out, blockHash') := hashBlock blockHash seg (byte.unsigned v) in
      privateKey' ← slice_from privateKey (blockSize s);
      sign_loop s blockHash' (sig ++ out) privateKey' d'
  end.

(** [Sign] returns its Go result, the bytes of the caller's key buffer as the
    call leaves them, and the reader as it left it.  The body reads
    [privateKey] and re-slices its own copy of the slice header; it has no
    assignment to an element of it, so the buffer comes back as it went in. *)
Definition Sign (s : Scheme) (privateKey : PrivateKey) (message : bytes)
  : exec (go_result bytes * PrivateKey * R) :=
  if negb (length privateKey =? PrivateKeySize s) then
    Done (Err InvalidKeySize, privateKey, rand s)
  else
    let blockHash := New (chainFunc s) in
    match io_ReadFull (rand s) (digestSize s) with
    | (None, rd) => Done (Err RandomSourceFailure, privateKey, rd)
    | (Some r, rd) =>
        let sig := [] ++ r in
        d ← messageDigest (New (hashFunc s)) r message;
        sig ← sign_loop s blockHash sig privateKey d;
        Done (Ok sig, privateKey, rd)
    end.

(** [for _, v := range d] of [Verify]. *)
Fixpoint verify_loop (s : Scheme) (keyHash blockHash : Hash) (sig d : bytes)
  : exec Hash :=
  match d with
  | [] => Done keyHash
  | v :: d' =>
      seg ← slice_to sig (blockSize s);
      let '(out, blockHash') :=
        hashBlock blockHash seg (256 - byte.unsigned v)%Z in
      sig' ← slice_from sig (blockSize s);
      verify_loop s (Write keyHash out) blockHash' sig' d'
  end.

Definition Verify (s : Scheme) (publicKey : PublicKey) (message sig : bytes)
  : exec bool :=
  if (negb (length publicKey =? PublicKeySize s)
      || negb (length sig =? SignatureSize s))%bool then
    Done false
  else
    r ← slice_to sig (digestSize s);
    d ← messageDigest (New (hashFunc s)) r message;
    sig ← slice_from sig (digestSize s);
    let keyHash := New (hashFunc s) in
    let blockHash := New (chainFunc s) in
    keyHash ← verify_loop s keyHash blockHash sig d;
    Done (bytes_Equal (Sum keyHash []) publicKey).

End Scheme.

Arguments Scheme R : clear implicits.

(** ** The superseded API

    The earlier shape of the package: one hash function for everything, a
    private key object that carries its public key, and a [Sign] without an
    error result that destroys the key.  [hashBlock] and [messageDigest] are
    the same text in both files. *)
Module Legacy.

Section Scheme.

Context {R : Type} `{Reader R}.

Record Scheme : Type := {
  blockSize : nat;
  hashFunc : HashFunc;
  rand : R
}.

Definition NewScheme (h : HashFunc) (rd : R) : Scheme :=
  {| blockSize := Size h; hashFunc := h; rand := rd |}.

Definition PublicKeySize (s : Scheme) : nat := blockSize s.

Definition SignatureSize (s : Scheme) : nat :=
  (blockSize s + 2) * blockSize s + blockSize s.

Record PrivateKey : Type := {
  PublicKey : bytes;
  B : bytes
}.

(** [for _, v := range messageDigest(...)] of [Sign], over the local slice
    [b]. *)
Fixpoint sign_loop (s : Scheme) (blockHash : Hash) (sig b d : bytes)
  : exec bytes :=
  match d with
  | [] => Done sig
  | v :: d' =>
      seg ← slice_to b (blockSize s);
      let '(out, blockHash') := hashBlock blockHash seg (byte.unsigned v) in
      b' ← slice_from b (blockSize s);
      sign_loop s blockHash' (sig ++ out) b' d'
  end.

(** [Sign(k, message)] returns the signature ([nil] when the random source
    fails), the key object [*k] as the call leaves it, the contents of the
    array that [k.B] pointed to on entry, and the reader. *)
Definition Sign (s : Scheme) (k : PrivateKey) (message : bytes)
  : exec (bytes * PrivateKey * bytes * R) :=
  match io_ReadFull (rand s) (blockSize s) with
  | (None, rd) => Done ([], k, B k, rd)
  | (Some randomParamSl, rd) =>
      let sig := [] ++ randomParamSl in
      let blockHash := New (hashFunc s) in
      let b := B k in
      d ← messageDigest (New (hashFunc s)) randomParamSl message;
      sig ← sign_loop s blockHash sig b d;
      arr ← for_range 0 (length (B k)) (fun i a => store a i Byte.x00) (B k);
      Done (sig, {| PublicKey := PublicKey k; B := [] |}, arr, rd)
  end.

(** The loop of [BytesToPrivateKey],
    [for i := 0; i < len(srcKey); i += s.blockSize], from index [i]. *)
Fixpoint pubkey_loop (fuel : nat) (s : Scheme) (keyHash blockHash : Hash)
  (srcKey : bytes) (i : nat) : exec (Hash * Hash) :=
  if i <? length srcKey then
    match fuel with
    | O => Diverge
    | S fuel' =>
        seg ← slice srcKey i (i + blockSize s);
        let '(out, blockHash') := hashBlock blockHash seg 256%Z in
        pubkey_loop fuel' s (Write keyHash out) blockHash' srcKey
          (i + blockSize s)
    end
  else Done (keyHash, blockHash).

(** [BytesToPrivateKey(srcKey)]: the key object keeps [srcKey] itself as its
    private bytes; the error result is always nil. *)
Definition BytesToPrivateKey (s : Scheme) (srcKey : bytes)
  : exec (go_result PrivateKey) :=
  let keyHash := New (hashFunc s) in
  let blockHash := New (hashFunc s) in
  '(keyHash, _) ← pubkey_loop (S (length srcKey)) s keyHash blockHash
                    srcKey 0;
  Done (Ok {| PublicKey := Sum keyHash []; B := srcKey |}).

(** [GenerateKey()] with the reader as it left it. *)
Definition GenerateKey (s : Scheme) : exec (go_result PrivateKey * R) :=
  if (blockSize s <? 16) || (128 <? blockSize s) then
    Done (Err InvalidParameter, rand s)
  else
    match io_ReadFull (rand s) ((blockSize s + 2) * blockSize s) with
    | (None, rd) => Done (Err RandomSourceFailure, rd)
    | (Some randKeySl, rd) =>
        k ← BytesToPrivateKey s randKeySl;
        Done (k, rd)
    end.

(** [for _, v := range d] of [Verify]. *)
Fixpoint verify_loop (s : Scheme) (keyHash blockHash : Hash) (sig d : bytes)
  : exec Hash :=
  match d with
  | [] => Done keyHash
  | v :: d' =>
      seg ← slice_to sig (blockSize s);
      let '(out, blockHash') :=
        hashBlock blockHash seg (256 - byte.unsigned v)%Z in
      sig' ← slice_from sig (blockSize s);
      verify_loop s (Write keyHash out) blockHash' sig' d'
  end.

Definition Verify (s : Scheme) (publicKey message sig : bytes) : exec bool :=
  if (negb (length publicKey =? PublicKeySize s)
      || negb (length sig =? SignatureSize s))%bool then
    Done false
  else
    r ← slice_to sig (blockSize s);
    d ← messageDigest (New (hashFunc s)) r message;
    sig ← slice_from sig (blockSize s);
    let keyHash := New (hashFunc s) in
    let blockHash := New (hashFunc s) in
    keyHash ← verify_loop s keyHash blockHash sig d;
    Done (bytes_Equal (Sum keyHash []) publicKey).

End Scheme.

Arguments Scheme R : clear implicits.

End Legacy.

(** ** Test doubles

    [devZero] is the reader of the package's tests: it fills every buffer
    with zero bytes and never fails. *)
Inductive devZero : Type := zeroReader.

Definition devZero_fill (rd : devZero) (n : nat) : option bytes * devZero :=
  (Some (replicate n Byte.x00), rd).

Lemma devZero_fill_length rd n bs rd' :
  devZero_fill rd n = (Some bs, rd') -> length bs = n.
Proof.
  unfold devZero_fill. intros E. injection E as <- _. apply length_replicate.
Qed.

#[global] Instance devZero_Reader : Reader devZero :=
  {| fill := devZero_fill; fill_length := devZero_fill_length |}.

(** A reader over a finite supply of bytes; it fails once the supply is
    shorter than the buffer. *)
Definition tape : Type := bytes.

Definition tape_fill (rd : tape) (n : nat) : option bytes * tape :=
  if (n <=? length rd) then (Some (take n rd), drop n rd) else (None, []).

Lemma tape_fill_length rd n bs rd' :
  tape_fill rd n = (Some bs, rd') -> length bs = n.
Proof.
  unfold tape_fill. intros E.
  destruct (n <=? length rd) eqn:L; [|discriminate].
  injection E as <- _. apply Nat.leb_le in L. rewrite length_take. lia.
Qed.

#[global] Instance tape_Reader : Reader tape :=
  {| fill := tape_fill; fill_length := tape_fill_length |}.

(** A small stand-in for a hash function with [n] bytes of output: byte [j]
    of the digest folds the message into a running value started at [j]. *)
Definition toy_digest (n : nat) (m : bytes) : bytes :=
  map (fun j =>
         byte.of_Z
           (fold_left
              (fun acc b => (acc * 31 + byte.unsigned b + 1) mod 256)%Z
              m (Z.of_nat j + Z.of_nat (length m))%Z))
      (seq 0 n).

Lemma toy_digest_length n m : length (toy_digest n m) = n.
Proof. unfold toy_digest. rewrite length_map. apply length_seq. Qed.

Definition toyHash (n : nat) : HashFunc :=
  {| Size := n; digest := toy_digest n; digest_Size := toy_digest_length n |}.

(** A second stand-in, cheap to run through the 256-step chains of a
    scheme with a 16-byte chaining hash: the message reversed, filled up and
    cut to [n] bytes. *)
Definition mirror_digest (n : nat) (m : bytes) : bytes :=
  take n (rev m ++ replicate n Byte.x5a).

Lemma mirror_digest_length n m : length (mirror_digest n m) = n.
Proof.
  unfold mirror_digest.
  rewrite length_take, length_app, length_replicate. lia.
Qed.

Definition mirrorHash (n : nat) : HashFunc :=
  {| Size := n; digest := mirror_digest n;
     digest_Size := mirror_digest_length n |}.

(** ** The randomized digest in the words of the specification

    These definitions follow the description of the digest, not the code;
    [messageDigest_refines] compares the two. *)

(** The 2-byte big-endian encoding of [n] (of its low 16 bits). *)
Definition be16 (n : Z) : bytes := [byte.of_Z (n / 256); byte.of_Z n].

(** A block XORed byte-wise with the nonce. *)
Definition xor_nonce (r blk : bytes) : bytes := zip_with byte.xor blk r.

(** The first [n] blocks of [len] bytes of [msg]. *)
Fixpoint full_blocks (n len : nat) (msg : bytes) : list bytes :=
  match n with
  | O => []
  | S n' => take len msg :: full_blocks n' len (drop len msg)
  end.

(** The bytes of [msg] after its last full block of [len] bytes. *)
Definition last_partial (len : nat) (msg : bytes) : bytes :=
  drop (length msg / len * len) msg.

(** The remaining bytes, one [0x80] byte, zero fill to [len] bytes. *)
Definition pad_block (len : nat) (rest : bytes) : bytes :=
  rest ++ [Byte.x80] ++ replicate (len - length rest - 1) Byte.x00.

(** Everything the digest feeds into the hash, in order. *)
Definition digest_feed (r msg : bytes) : bytes :=
  r
  ++ concat (map (xor_nonce r)
               (full_blocks (length msg / length r) (length r) msg))
  ++ xor_nonce r (pad_block (length r) (last_partial (length r) msg))
  ++ be16 (Z.of_nat (length r)).

(** The sum of [256 - d[i]] over all bytes of [d], as an integer. *)
Definition complement_sum (d : bytes) : Z :=
  foldr (fun v s => (256 - byte.unsigned v + s)%Z) 0%Z d.

(** The digest [d] followed by its checksum. *)
Definition with_checksum (d : bytes) : bytes :=
  d ++ be16 (complement_sum d mod 2 ^ 16)%Z.

Definition digest_spec (h : Hash) (r msg : bytes) : bytes :=
  with_checksum (digest (alg h) (written h ++ digest_feed r msg)).

(** ** Closed forms of the loops

    What the loops of the package compute, written without the loops; the
    lemmas on the loops rewrite with them. *)

(** The padding buffer after the block loop: untouched when the message has
    no full block, the last full block XORed with the nonce otherwise. *)
Definition tmp_after (r tmp msg : bytes) : bytes :=
  from_option (xor_nonce r) tmp
    (last (full_blocks (length msg / length r) (length r) msg)).

(** What is left of [messageDigest] once the padded block is written: the
    length indicator, the digest and its checksum. *)
Definition digest_tail (h : Hash) (r tmp : bytes) : exec bytes :=
  tmp ← store tmp 0 (byte.of_Z (Z.shiftr (Z.of_nat (length r)) 8));
  tmp ← store tmp 1 (byte.of_Z (Z.of_nat (length r)));
  two ← slice_to tmp 2;
  let h := Write h two in
  let d := Sum h [] in
  let sum := checksum d in
  Done (d ++ [byte.of_Z (Z.shiftr sum 8); byte.of_Z sum]).

(** The chain segments advanced as far as key derivation, signing and
    verification advance them. *)
Fixpoint pub_bytes (c : HashFunc) (bs : nat) (key : bytes) (n : nat) : bytes :=
  match n with
  | O => []
  | S n' =>
      Nat.iter 256 (digest c) (take bs key)
      ++ pub_bytes c bs (drop bs key) n'
  end.

Fixpoint sig_bytes (c : HashFunc) (bs : nat) (key d : bytes) : bytes :=
  match d with
  | [] => []
  | v :: d' =>
      Nat.iter (Z.to_nat (byte.unsigned v)) (digest c) (take bs key)
      ++ sig_bytes c bs (drop bs key) d'
  end.

Fixpoint ver_bytes (c : HashFunc) (bs : nat) (sg d : bytes) : bytes :=
  match d with
  | [] => []
  | v :: d' =>
      Nat.iter (Z.to_nat (256 - byte.unsigned v)) (digest c) (take bs sg)
      ++ ver_bytes c bs (drop bs sg) d'
  end.

(** The part of [digest_feed] that carries the message: the full blocks and
    the padded last block, each XORed with the nonce. *)
Definition padded_blocks (r msg : bytes) : bytes :=
  concat (map (xor_nonce r)
            (full_blocks (length msg / length r) (length r) msg))
  ++ xor_nonce r (pad_block (length r) (last_partial (length r) msg)).

(** ** Sample inputs

    A scheme with a 16-byte message hash and a 4-byte chaining hash over the
    zero reader, a private key for it, and schemes over hashes of 1 and 0
    bytes. *)
(** The bytes of the test message of the package, [hello world!]. *)
Definition hello : bytes :=
  [Byte.x68; Byte.x65; Byte.x6c; Byte.x6c; Byte.x6f; Byte.x20; Byte.x77;
  Byte.x6f; Byte.x72; Byte.x6c; Byte.x64; Byte.x21].

(** A second message, [hello again]. *)
Definition hello_again : bytes :=
  [Byte.x68; Byte.x65; Byte.x6c; Byte.x6c; Byte.x6f; Byte.x20; Byte.x61;
  Byte.x67; Byte.x61; Byte.x69; Byte.x6e].

Definition sample_scheme : Scheme devZero :=
  NewScheme2 (toyHash 16) (toyHash 4) zeroReader.

Definition sample_key : bytes :=
  map (fun i => byte.of_Z (Z.of_nat (7 * i + 3))) (seq 0 72).

Definition signature_of (o : exec (go_result bytes * PrivateKey * devZero))
  : bytes :=
  match o with
  | Done (Ok sig, _, _) => sig
  | _ => []
  end.

Definition sample_sig : bytes :=
  Eval vm_compute in signature_of (Sign sample_scheme sample_key hello).

Definition sample_sig_again : bytes :=
  Eval vm_compute in signature_of (Sign sample_scheme sample_key hello_again).

Definition sample_pub : bytes :=
  Eval vm_compute in
    match PublicKeyFromPrivate sample_scheme sample_key with
    | Done (Ok pub) => pub
    | _ => []
    end.

Definition one_byte_scheme : Scheme devZero :=
  NewScheme2 (toyHash 1) (toyHash 1) zeroReader.

(** The public key of the 3-byte private key [01 02 03] under
    [one_byte_scheme]. *)
Definition one_byte_pub : bytes :=
  Eval vm_compute in
    match PublicKeyFromPrivate one_byte_scheme
            [Byte.x01; Byte.x02; Byte.x03] with
    | Done (Ok pub) => pub
    | _ => []
    end.

Definition zero_byte_scheme : Scheme devZero :=
  NewScheme2 (toyHash 0) (toyHash 1) zeroReader.

Definition legacy_scheme : Legacy.Scheme devZero :=
  Legacy.NewScheme (toyHash 4) zeroReader.

Definition legacy_key : Legacy.PrivateKey :=
  {| Legacy.PublicKey := []; Legacy.B := take 24 sample_key |}.

Definition legacy_sig : bytes :=
  Eval vm_compute in
    match Legacy.Sign legacy_scheme legacy_key hello with
    | Done (sig, _, _, _) => sig
    | _ => []
    end.

Definition eight_byte_scheme : Scheme devZero :=
  NewScheme2 (toyHash 8) (toyHash 8) zeroReader.

(** The key pair that [GenerateKeyPair] draws from the zero reader under
    [sample_scheme], and the signature of [hello] with it. *)
Definition zero_key : bytes := replicate 72 Byte.x00.

Definition zero_pub : bytes :=
  Eval vm_compute in
    match GenerateKeyPair sample_scheme with
    | Done (Ok (_, pub), _) => pub
    | _ => []
    end.

Definition zero_sig : bytes :=
  Eval vm_compute in signature_of (Sign sample_scheme zero_key hello).

(** The run of the tests of the superseded API, over a 16-byte hash and the
    zero reader: the generated key object and the signature of [hello]. *)
Definition legacy16 : Legacy.Scheme devZero :=
  Legacy.NewScheme (mirrorHash 16) zeroReader.

Definition legacy16_key : Legacy.PrivateKey :=
  Eval vm_compute in
    match Legacy.GenerateKey legacy16 with
    | Done (Ok k, _) => k
    | _ => {| Legacy.PublicKey := []; Legacy.B := [] |}
    end.

Definition legacy16_sig : bytes :=
  Eval vm_compute in
    match Legacy.Sign legacy16 legacy16_key hello with
    | Done (sig, _, _, _) => sig
    | _ => []
    end.

(** * Properties *)

(** ** The monad *)

Lemma bind_Done {A B} (a : A) (f : A -> exec B) : (Done a ≫= f) = f a.
Proof. reflexivity. Qed.

Lemma bind_is_Done {A B} (m : exec A) (f : A -> exec B) (b : B) :
  (m ≫= f) = Done b -> exists a, m = Done a /\ f a = Done b.
Proof. destruct m as [a| |]; simpl; [eauto | discriminate | discriminate]. Qed.

(** ** Slices *)

Lemma slice_to_Done l n : (n <= length l) -> slice_to l n = Done (take n l).
Proof.
  intros L. unfold slice_to. apply Nat.leb_le in L. now rewrite L.
Qed.

Lemma slice_from_Done l n :
  (n <= length l) -> slice_from l n = Done (drop n l).
Proof.
  intros L. unfold slice_from. apply Nat.leb_le in L. now rewrite L.
Qed.

Lemma slice_Done l i j :
  (i <= j) -> (j <= length l) ->
  slice l i j = Done (take (j - i) (drop i l)).
Proof.
  intros L1 L2. unfold slice.
  apply Nat.leb_le in L1, L2. now rewrite L1, L2.
Qed.

Lemma store_Done l i x :
  (i < length l) -> store l i x = Done (<[i := x]> l).
Proof.
  intros L. unfold store. apply Nat.ltb_lt in L. now rewrite L.
Qed.

Lemma store_Panic l i x : (length l <= i) -> store l i x = Panic.
Proof.
  intros L. unfold store.
  destruct (i <? length l) eqn:E; [|reflexivity].
  apply Nat.ltb_lt in E. lia.
Qed.

Lemma index_Done (l : bytes) i x : l !! i = Some x -> index l i = Done x.
Proof. intros E. unfold index. now rewrite E. Qed.

(** ** hashBlock *)

Lemma hashBlock_loop_spec n : forall h out,
  hashBlock_loop n h out
  = (Nat.iter n (digest (alg h)) out,
     match n with
     | O => h
     | S n' => Write (Reset h) (Nat.iter n' (digest (alg h)) out)
     end).
Proof.
  induction n as [|n IH]; intros h out; [reflexivity|].
  cbn [hashBlock_loop]. rewrite IH.
  assert (E : Sum (Write (Reset h) out) (take 0 out) = digest (alg h) out)
    by reflexivity.
  cbn [Write Reset alg]. rewrite E, <- Nat.iter_succ_r. f_equal.
  destruct n as [|n]; [reflexivity|].
  unfold Write, Reset. cbn [alg written]. now rewrite <- Nat.iter_succ_r.
Qed.

Lemma hashBlock_fst h block n :
  fst (hashBlock h block n) = Nat.iter (Z.to_nat n) (digest (alg h)) block.
Proof. unfold hashBlock. now rewrite hashBlock_loop_spec. Qed.

Lemma hashBlock_alg h block n : alg (snd (hashBlock h block n)) = alg h.
Proof.
  unfold hashBlock. rewrite hashBlock_loop_spec. cbn [snd].
  now destruct (Z.to_nat n).
Qed.

Lemma iter_digest_length (c : HashFunc) n x :
  length x = Size c -> length (Nat.iter n (digest c) x) = Size c.
Proof.
  intros L. destruct n as [|n]; [exact L|]. cbn. apply digest_Size.
Qed.

(** C8.  [hashBlock(h, block, n)] is the [n]-fold iterate [H(H(...H(block)))]
    of the digest function of [h], whatever had been written to [h] before the
    call: every iteration resets the hash object and writes the running value
    alone.  With [n = 0] (and with a negative [n]) the result is the input
    block, byte for byte. *)
Theorem hashBlock_iterates (h : Hash) (block : bytes) (n : Z) :
  fst (hashBlock h block n) = Nat.iter (Z.to_nat n) (digest (alg h)) block
  /\ fst (hashBlock h block 0%Z) = block
  /\ fst (hashBlock h block (Z.succ (Z.abs n)))
     = digest (alg h) (fst (hashBlock (New (alg h)) block (Z.abs n))).
Proof.
  rewrite !hashBlock_fst. repeat split.
  rewrite Z2Nat.inj_succ by lia. reflexivity.
Qed.

(** ** The loops of messageDigest *)

Lemma xor_block_spec (r : bytes) : forall (ms : bytes) (i : nat) (tmp : bytes),
  i + length ms <= length r ->
  i + length ms <= length tmp ->
  xor_block i ms r tmp
  = Done (take i tmp ++ zip_with byte.xor ms (drop i r)
          ++ drop (i + length ms) tmp).
Proof.
  induction ms as [|m ms IH]; intros i tmp Lr Lt; cbn [xor_block length] in *.
  - rewrite Nat.add_0_r. cbn. now rewrite take_drop.
  - destruct (lookup_lt_is_Some_2 r i) as [ri Ei]; [lia|].
    rewrite (index_Done _ _ _ Ei), bind_Done.
    rewrite store_Done, bind_Done by lia.
    rewrite IH by (rewrite ?length_insert; lia).
    f_equal.
    rewrite (drop_S r ri i Ei). cbn [zip_with].
    rewrite drop_insert_lt by lia.
    erewrite take_S_r by (apply list_lookup_insert_eq; lia).
    rewrite take_insert_ge by lia.
    rewrite <- app_assoc. cbn. now rewrite Nat.add_succ_r.
Qed.

Lemma xor_block_full (r blk tmp : bytes) :
  length blk = length r -> length tmp = length r ->
  xor_block 0 blk r tmp = Done (xor_nonce r blk).
Proof.
  intros Lb Lt. rewrite xor_block_spec by (cbn; lia).
  unfold xor_nonce. cbn [take drop app Nat.add].
  rewrite (drop_ge tmp) by lia. now rewrite app_nil_r.
Qed.

Lemma zero_range_spec : forall (n i : nat) (t : bytes),
  i + n = length t ->
  for_range i n (fun i t => store t i Byte.x00) t
  = Done (take i t ++ replicate n Byte.x00).
Proof.
  induction n as [|n IH]; intros i t L; cbn [for_range].
  - cbn. rewrite app_nil_r, take_ge by lia. reflexivity.
  - rewrite store_Done, bind_Done by lia.
    rewrite IH by (rewrite length_insert; lia).
    erewrite take_S_r by (apply list_lookup_insert_eq; lia).
    rewrite take_insert_ge by lia.
    now rewrite <- app_assoc.
Qed.

Lemma xor_range_spec (r : bytes) : forall (n i : nat) (t : bytes),
  i + n = length t -> length t <= length r ->
  for_range i n
    (fun i t => ti ← index t i; ri ← index r i; store t i (byte.xor ti ri)) t
  = Done (take i t ++ zip_with byte.xor (drop i t) (drop i r)).
Proof.
  induction n as [|n IH]; intros i t L Lr; cbn [for_range].
  - rewrite (drop_ge t) by lia. cbn. rewrite app_nil_r, take_ge by lia.
    reflexivity.
  - destruct (lookup_lt_is_Some_2 t i) as [ti Et]; [lia|].
    destruct (lookup_lt_is_Some_2 r i) as [ri Er]; [lia|].
    rewrite (index_Done _ _ _ Et), bind_Done.
    rewrite (index_Done _ _ _ Er), bind_Done.
    rewrite store_Done, bind_Done by lia.
    rewrite IH by (rewrite ?length_insert; lia).
    f_equal.
    erewrite take_S_r by (apply list_lookup_insert_eq; lia).
    rewrite take_insert_ge, drop_insert_lt by lia.
    rewrite (drop_S t ti i Et), (drop_S r ri i Er). cbn [zip_with].
    now rewrite <- app_assoc.
Qed.

Lemma length_xor_nonce r blk :
  length blk = length r -> length (xor_nonce r blk) = length r.
Proof. intros L. unfold xor_nonce. rewrite length_zip_with. lia. Qed.

Lemma block_loop_spec (r : bytes) :
  0 < length r ->
  forall (fuel : nat) (h : Hash) (tmp msg : bytes),
  length msg < fuel -> length tmp = length r ->
  block_loop fuel h r tmp msg
  = Done ({| alg := alg h;
             written := written h
               ++ concat (map (xor_nonce r)
                   (full_blocks (length msg / length r) (length r) msg)) |},
          tmp_after r tmp msg,
          last_partial (length r) msg).
Proof.
  intros Hr. induction fuel as [|fuel IH]; intros h tmp msg Hf Ht; [lia|].
  cbn [block_loop]. unfold tmp_after, last_partial.
  destruct (length r <=? length msg) eqn:E.
  - apply Nat.leb_le in E.
    rewrite slice_to_Done, bind_Done by lia.
    rewrite xor_block_full, bind_Done by (rewrite ?length_take; lia).
    rewrite slice_from_Done, bind_Done by lia.
    rewrite IH; cycle 1.
    { rewrite length_drop. lia. }
    { apply length_xor_nonce. rewrite length_take. lia. }
    assert (D : length msg / length r
                = S (length (drop (length r) msg) / length r)).
    { rewrite length_drop.
      replace (length msg) with (length msg - length r + 1 * length r) at 1
        by lia.
      rewrite Nat.div_add by lia. lia. }
    rewrite D. cbn [full_blocks map concat Write alg written].
    unfold tmp_after, last_partial.
    rewrite <- !app_assoc, drop_drop.
    generalize (length (drop (length r) msg) / length r). intros n.
    replace (S n * length r) with (length r + n * length r) by lia.
    destruct (full_blocks n (length r) (drop (length r) msg)) as [|b l];
      [reflexivity|].
    change (last (take (length r) msg :: b :: l)) with (last (b :: l)).
    destruct (last (b :: l)) eqn:EL; [reflexivity|].
    apply last_None in EL. discriminate.
  - apply Nat.leb_gt in E. rewrite Nat.div_small by lia.
    cbn. rewrite app_nil_r. now destruct h.
Qed.

Lemma last_full_block (len : nat) : forall (n : nat) (msg b : bytes),
  n * len <= length msg ->
  last (full_blocks n len msg) = Some b -> length b = len.
Proof.
  induction n as [|n IH]; intros msg b L E; [discriminate|].
  cbn [full_blocks] in E.
  destruct (full_blocks n len (drop len msg)) eqn:F.
  - injection E as <-. rewrite length_take. lia.
  - apply (IH (drop len msg)); [rewrite length_drop; lia|].
    rewrite F. exact E.
Qed.

Lemma length_tmp_after r tmp msg :
  length tmp = length r -> length (tmp_after r tmp msg) = length r.
Proof.
  intros Ht. unfold tmp_after.
  destruct (last _) as [b|] eqn:E; [|exact Ht].
  cbn. apply length_xor_nonce.
  apply last_full_block in E; [exact E|].
  rewrite Nat.mul_comm. apply Nat.Div0.mul_div_le.
Qed.

Lemma block_loop_diverges (r : bytes) :
  length r = 0 ->
  forall (fuel : nat) (h : Hash) (tmp msg : bytes),
  block_loop fuel h r tmp msg = Diverge.
Proof.
  intros Hr. induction fuel as [|fuel IH]; intros h tmp msg;
    cbn [block_loop]; rewrite Hr; cbn [Nat.leb]; [reflexivity|].
  rewrite slice_to_Done, bind_Done by lia.
  rewrite take_0. cbn [xor_block]. rewrite bind_Done.
  rewrite slice_from_Done, bind_Done by lia. apply IH.
Qed.

Lemma length_last_partial (len : nat) (msg : bytes) :
  0 < len -> length (last_partial len msg) < len.
Proof.
  intros L. unfold last_partial. rewrite length_drop.
  pose proof (Nat.Div0.div_mod (length msg) len) as D.
  pose proof (Nat.mod_upper_bound (length msg) len) as U.
  rewrite (Nat.mul_comm (length msg / len)). lia.
Qed.

Lemma copy_into_zeros (n : nat) (rest : bytes) :
  length rest <= n ->
  copy (replicate n Byte.x00) rest
  = rest ++ replicate (n - length rest) Byte.x00.
Proof.
  intros L. unfold copy.
  rewrite length_replicate, take_ge, drop_replicate by lia. reflexivity.
Qed.

(** The steps of [messageDigest] between the block loop and [h.Write(tmp)]:
    they leave the padded last block, XORed with the nonce, in [tmp]. *)
Lemma padding_steps (r tmp rest : bytes) (k : bytes -> exec bytes) :
  length tmp = length r -> length rest < length r ->
  (t ← for_range 0 (length tmp) (fun i t => store t i Byte.x00) tmp;
   t ← store (copy t rest) (length rest) Byte.x80;
   t ← for_range 0 (length t)
         (fun i t => ti ← index t i; ri ← index r i;
                     store t i (byte.xor ti ri)) t;
   k t)
  = k (xor_nonce r (pad_block (length r) rest)).
Proof.
  intros Lt Lr.
  rewrite zero_range_spec, bind_Done by lia. rewrite take_0, app_nil_l.
  rewrite Lt, copy_into_zeros by lia.
  rewrite store_Done, bind_Done
    by (rewrite length_app, length_replicate; lia).
  rewrite insert_app_r_alt by lia. rewrite Nat.sub_diag.
  assert (P : rest ++ <[0 := Byte.x80]> (replicate (length r - length rest)
                                                   Byte.x00)
              = pad_block (length r) rest).
  { unfold pad_block. f_equal.
    destruct (length r - length rest) as [|n] eqn:E; [lia|].
    cbn. now rewrite Nat.sub_0_r. }
  rewrite P.
  assert (Lp : length (pad_block (length r) rest) = length r).
  { unfold pad_block. rewrite !length_app, length_replicate. cbn. lia. }
  rewrite xor_range_spec, bind_Done by lia. reflexivity.
Qed.

Lemma length_pad_block (len : nat) (rest : bytes) :
  length rest < len -> length (pad_block len rest) = len.
Proof.
  intros L. unfold pad_block. rewrite !length_app, length_replicate. cbn. lia.
Qed.

(** ** The checksum *)

Lemma u16_add_u16 (a b : Z) : u16 (u16 a + u16 b) = u16 (a + b).
Proof. unfold u16. now rewrite <- Zplus_mod. Qed.

Lemma checksum_fold (d : bytes) : forall a : Z,
  fold_left (fun sum v => u16 (sum + u16 (256 - byte.unsigned v))%Z) d (u16 a)
  = u16 (a + complement_sum d).
Proof.
  induction d as [|v d IH]; intros a; cbn [fold_left complement_sum foldr].
  - now rewrite Z.add_0_r.
  - rewrite u16_add_u16, IH. f_equal. fold (complement_sum d). lia.
Qed.

Lemma checksum_spec (d : bytes) :
  checksum d = (complement_sum d mod 2 ^ 16)%Z.
Proof.
  unfold checksum. change 0%Z with (u16 0). rewrite checksum_fold.
  reflexivity.
Qed.

Lemma complement_sum_bounds (d : bytes) :
  (Z.of_nat (length d) <= complement_sum d <= 256 * Z.of_nat (length d))%Z.
Proof.
  induction d as [|v d IH]; cbn [complement_sum foldr length]; [lia|].
  fold (complement_sum d). pose proof (byte.unsigned_range v). lia.
Qed.

(** ** messageDigest against its specification *)

Lemma messageDigest_fuel_unfold (fuel : nat) (h : Hash) (r msg : bytes) :
  0 < length r -> length msg < fuel ->
  messageDigest_fuel fuel h r msg
  = let p := xor_nonce r (pad_block (length r) (last_partial (length r) msg))
    in
    digest_tail
      {| alg := alg h;
         written := written h ++ r
           ++ concat (map (xor_nonce r)
                (full_blocks (length msg / length r) (length r) msg))
           ++ p |}
      r p.
Proof.
  intros Hr Hf. unfold messageDigest_fuel.
  rewrite block_loop_spec by (rewrite ?length_replicate; lia).
  rewrite bind_Done. cbv zeta.
  rewrite padding_steps.
  - unfold digest_tail, Write. cbn [alg written].
    now rewrite <- !app_assoc.
  - apply length_tmp_after, length_replicate.
  - now apply length_last_partial.
Qed.

Lemma two_stores (t : bytes) (a b : byte) :
  2 <= length t -> take 2 (<[1 := b]> (<[0 := a]> t)) = [a; b].
Proof.
  destruct t as [|x [|y t]]; cbn; intros L; try lia. reflexivity.
Qed.

Lemma be16_shift (n : Z) :
  [byte.of_Z (Z.shiftr n 8); byte.of_Z n] = be16 n.
Proof. unfold be16. now rewrite Z.shiftr_div_pow2 by lia. Qed.

Lemma messageDigest_fuel_spec (fuel : nat) (h : Hash) (r msg : bytes) :
  2 <= length r -> length msg < fuel ->
  messageDigest_fuel fuel h r msg = Done (digest_spec h r msg).
Proof.
  intros Hr Hf. rewrite messageDigest_fuel_unfold by lia. cbv zeta.
  assert (Lp : length (xor_nonce r (pad_block (length r)
                                      (last_partial (length r) msg)))
               = length r).
  { apply length_xor_nonce, length_pad_block, length_last_partial. lia. }
  unfold digest_tail.
  rewrite store_Done, bind_Done by lia.
  rewrite store_Done, bind_Done by (rewrite length_insert; lia).
  rewrite slice_to_Done, bind_Done by (rewrite !length_insert; lia).
  rewrite two_stores by lia. cbv zeta.
  unfold digest_spec, with_checksum, digest_feed, Sum, Write.
  cbn [alg written]. rewrite app_nil_l, be16_shift, be16_shift, checksum_spec.
  now rewrite <- !app_assoc.
Qed.

Lemma messageDigest_fuel_one (fuel : nat) (h : Hash) (r msg : bytes) :
  length r = 1 -> length msg < fuel ->
  messageDigest_fuel fuel h r msg = Panic.
Proof.
  intros Hr Hf. rewrite messageDigest_fuel_unfold by lia. cbv zeta.
  assert (Lp : length (xor_nonce r (pad_block (length r)
                                      (last_partial (length r) msg)))
               = length r).
  { apply length_xor_nonce, length_pad_block, length_last_partial. lia. }
  unfold digest_tail.
  rewrite store_Done, bind_Done by lia.
  rewrite store_Panic by (rewrite length_insert; lia). reflexivity.
Qed.

Lemma messageDigest_fuel_zero (fuel : nat) (h : Hash) (r msg : bytes) :
  length r = 0 -> messageDigest_fuel fuel h r msg = Diverge.
Proof.
  intros Hr. unfold messageDigest_fuel.
  now rewrite block_loop_diverges.
Qed.

(** More turns than one per message byte never change the outcome, so the
    count built into [messageDigest] loses nothing: where it reports
    [Diverge] every count does. *)
Lemma messageDigest_fuel_enough (fuel : nat) (h : Hash) (r msg : bytes) :
  length msg < fuel ->
  messageDigest_fuel fuel h r msg = messageDigest h r msg.
Proof.
  intros Hf. unfold messageDigest.
  destruct (length r) as [|[|n]] eqn:E.
  - now rewrite !messageDigest_fuel_zero.
  - now rewrite !messageDigest_fuel_one by lia.
  - now rewrite !messageDigest_fuel_spec by lia.
Qed.

Lemma messageDigest_spec (h : Hash) (r msg : bytes) :
  2 <= length r -> messageDigest h r msg = Done (digest_spec h r msg).
Proof. intros Hr. apply messageDigest_fuel_spec; lia. Qed.

Lemma length_digest_spec (h : Hash) (r msg : bytes) :
  length (digest_spec h r msg) = Size (alg h) + 2.
Proof.
  unfold digest_spec, with_checksum. rewrite length_app, digest_Size.
  reflexivity.
Qed.

Lemma messageDigest_returns_iff (h : Hash) (r msg out : bytes) :
  messageDigest h r msg = Done out
  <-> 2 <= length r /\ out = digest_spec h r msg.
Proof.
  split.
  - intros E. destruct (length r) as [|[|n]] eqn:L.
    + unfold messageDigest in E.
      now rewrite messageDigest_fuel_zero in E.
    + unfold messageDigest in E.
      now rewrite messageDigest_fuel_one in E by lia.
    + rewrite messageDigest_spec in E by lia. injection E as <-.
      split; [lia | reflexivity].
  - intros [L ->]. now apply messageDigest_spec.
Qed.

(** ** Key derivation, signing and verification *)

Lemma bytes_Equal_refl (a : bytes) : bytes_Equal a a = true.
Proof.
  induction a as [|x a IH]; [reflexivity|]. cbn.
  now rewrite (Byte.byte_dec_lb (eq_refl x)), IH.
Qed.

Lemma bytes_Equal_eq (a b : bytes) : bytes_Equal a b = true <-> a = b.
Proof.
  split; [|intros ->; apply bytes_Equal_refl].
  revert b. induction a as [|x a IH]; intros [|y b] E; cbn in E;
    try discriminate; [reflexivity|].
  apply andb_true_iff in E as [E1 E2].
  apply Byte.byte_dec_bl in E1. apply IH in E2. congruence.
Qed.

Lemma length_sig_bytes (c : HashFunc) : forall (d key : bytes),
  length key = length d * Size c ->
  length (sig_bytes c (Size c) key d) = length d * Size c.
Proof.
  induction d as [|v d IH]; intros key L; [reflexivity|].
  cbn [sig_bytes length] in *. rewrite length_app, IH.
  - rewrite iter_digest_length; [lia|]. rewrite length_take. lia.
  - rewrite length_drop. lia.
Qed.

(** Verification completes every chain to the 256 steps of key derivation. *)
Lemma ver_sig_bytes (c : HashFunc) : forall (d key : bytes),
  length key = length d * Size c ->
  ver_bytes c (Size c) (sig_bytes c (Size c) key d) d
  = pub_bytes c (Size c) key (length d).
Proof.
  induction d as [|v d IH]; intros key L; [reflexivity|].
  cbn [sig_bytes ver_bytes pub_bytes length] in *.
  set (a := Nat.iter (Z.to_nat (byte.unsigned v)) (digest c)
              (take (Size c) key)).
  assert (La : length a = Size c).
  { apply iter_digest_length. rewrite length_take. lia. }
  rewrite take_app_length', drop_app_length' by congruence.
  rewrite IH by (rewrite length_drop; lia). f_equal.
  unfold a. rewrite <- Nat.iter_add. f_equal.
  pose proof (byte.unsigned_range v). lia.
Qed.

Section SchemeFacts.

Context {R : Type} `{Reader R}.

Implicit Types (s : Scheme R) (h c : HashFunc) (rd : R).

Lemma io_ReadFull_length rd n bs rd' :
  io_ReadFull rd n = (Some bs, rd') -> length bs = n.
Proof.
  destruct n as [|n]; cbn [io_ReadFull].
  - intros E. now injection E as <- _.
  - apply fill_length.
Qed.

Lemma pubkey_loop_spec s : 0 < blockSize s ->
  forall (n fuel : nat) (kh bh : Hash) (key : bytes) (i : nat),
  i + n * blockSize s = length key -> n < fuel ->
  exists bh',
    pubkey_loop fuel s kh bh key i
    = Done ({| alg := alg kh;
               written := written kh
                 ++ pub_bytes (alg bh) (blockSize s) (drop i key) n |}, bh')
    /\ alg bh' = alg bh.
Proof.
  intros Hb. induction n as [|n IH]; intros fuel kh bh key i L Hf.
  - destruct fuel as [|fuel]; [lia|]. cbn [pubkey_loop pub_bytes].
    rewrite (proj2 (Nat.ltb_ge _ _)) by lia.
    exists bh. rewrite app_nil_r. now destruct kh.
  - destruct fuel as [|fuel]; [lia|]. cbn [pubkey_loop pub_bytes].
    rewrite (proj2 (Nat.ltb_lt _ _)) by lia.
    rewrite slice_Done, bind_Done by lia.
    replace (i + blockSize s - i) with (blockSize s) by lia.
    pose proof (hashBlock_fst bh (take (blockSize s) (drop i key)) 256) as F.
    pose proof (hashBlock_alg bh (take (blockSize s) (drop i key)) 256) as A.
    destruct (hashBlock bh _ 256) as [out bh1]. cbn [fst snd] in F, A.
    destruct (IH fuel (Write kh out) bh1 key (i + blockSize s))
      as (bh' & E & A'); [lia | lia |].
    exists bh'. rewrite E. split; [|congruence].
    cbn [Write alg written]. rewrite A, F, <- app_assoc, drop_drop.
    reflexivity.
Qed.

(** Key derivation never panics and never loops: on a key of the wrong
    length it returns the error, on any other the hash of the advanced
    segments. *)
Lemma PublicKeyFromPrivate_spec h c rd (key : bytes) :
  let s := NewScheme2 h c rd in
  PublicKeyFromPrivate s key
  = if length key =? PrivateKeySize s
    then Done (Ok (digest h (pub_bytes c (Size c) key (Size h + 2))))
    else Done (Err InvalidKeySize).
Proof.
  intros s. unfold PublicKeyFromPrivate.
  destruct (length key =? PrivateKeySize s) eqn:E; [|reflexivity].
  apply Nat.eqb_eq in E. cbn [negb]. unfold PrivateKeySize in E.
  cbn [digestSize blockSize NewScheme2 s] in E.
  destruct (Size c) as [|b] eqn:Eb.
  - (* blockSize = 0: the key is empty and the loop body never runs *)
    assert (key = []) as -> by (apply length_zero_iff_nil; lia).
    clear E. cbn. do 3 f_equal.
    induction (Size h + 2) as [|n IH]; [reflexivity|].
    cbn [pub_bytes]. rewrite drop_nil, <- IH, app_nil_r.
    symmetry. apply length_zero_iff_nil.
    rewrite iter_digest_length; [exact Eb|]. now rewrite Eb.
  - destruct (pubkey_loop_spec s ltac:(cbn; lia) (Size h + 2)
                (S (length key)) (New h) (New c) key 0) as (bh' & P & _).
    + cbn [blockSize NewScheme2 s]. lia.
    + nia.
    + cbn [hashFunc chainFunc NewScheme2 s]. rewrite P, bind_Done.
      cbn [New alg written blockSize NewScheme2 s Sum app drop].
      now rewrite Eb.
Qed.

Lemma sign_loop_spec s : forall (d key sig : bytes) (bh : Hash),
  length key = length d * blockSize s ->
  sign_loop s bh sig key d
  = Done (sig ++ sig_bytes (alg bh) (blockSize s) key d).
Proof.
  induction d as [|v d IH]; intros key sig bh L; cbn [sign_loop sig_bytes].
  - now rewrite app_nil_r.
  - cbn [length] in L. rewrite slice_to_Done, bind_Done by lia.
    pose proof (hashBlock_fst bh (take (blockSize s) key) (byte.unsigned v))
      as F.
    pose proof (hashBlock_alg bh (take (blockSize s) key) (byte.unsigned v))
      as A.
    destruct (hashBlock bh _ _) as [out bh1]. cbn [fst snd] in F, A.
    rewrite slice_from_Done, bind_Done by lia.
    rewrite IH by (rewrite length_drop; lia).
    now rewrite A, F, <- app_assoc.
Qed.

Lemma verify_loop_spec s : forall (d sg : bytes) (kh bh : Hash),
  length sg = length d * blockSize s ->
  verify_loop s kh bh sg d
  = Done {| alg := alg kh;
            written := written kh
              ++ ver_bytes (alg bh) (blockSize s) sg d |}.
Proof.
  induction d as [|v d IH]; intros sg kh bh L; cbn [verify_loop ver_bytes].
  - rewrite app_nil_r. now destruct kh.
  - cbn [length] in L. rewrite slice_to_Done, bind_Done by lia.
    pose proof (hashBlock_fst bh (take (blockSize s) sg)
                  (256 - byte.unsigned v)) as F.
    pose proof (hashBlock_alg bh (take (blockSize s) sg)
                  (256 - byte.unsigned v)) as A.
    destruct (hashBlock bh _ _) as [out bh1]. cbn [fst snd] in F, A.
    rewrite slice_from_Done, bind_Done by lia.
    rewrite IH by (rewrite length_drop; lia).
    cbn [Write alg written]. now rewrite A, F, <- app_assoc.
Qed.

(** What [messageDigest] does on a nonce of [n] bytes, by [n]. *)
Lemma messageDigest_by_length (hh : Hash) (r msg : bytes) :
  messageDigest hh r msg
  = match length r with
    | 0 => Diverge
    | 1 => Panic
    | _ => Done (digest_spec hh r msg)
    end.
Proof.
  destruct (length r) as [|[|n]] eqn:E.
  - now apply messageDigest_fuel_zero.
  - apply messageDigest_fuel_one; lia.
  - apply messageDigest_spec; lia.
Qed.

Lemma Sign_spec h c rd (key msg : bytes) :
  let s := NewScheme2 h c rd in
  Sign s key msg
  = if length key =? PrivateKeySize s then
      match io_ReadFull rd (Size h) with
      | (None, rd') => Done (Err RandomSourceFailure, key, rd')
      | (Some r, rd') =>
          match Size h with
          | 0 => Diverge
          | 1 => Panic
          | _ => Done (Ok (r ++ sig_bytes c (Size c) key
                                  (digest_spec (New h) r msg)), key, rd')
          end
      end
    else Done (Err InvalidKeySize, key, rd).
Proof.
  intros s. unfold Sign.
  destruct (length key =? PrivateKeySize s) eqn:E; [|reflexivity].
  apply Nat.eqb_eq in E. cbn [negb rand digestSize NewScheme2 s].
  destruct (io_ReadFull rd (Size h)) as [[r|] rd'] eqn:Er; [|reflexivity].
  apply io_ReadFull_length in Er.
  cbn [hashFunc chainFunc NewScheme2 s].
  rewrite messageDigest_by_length, Er.
  destruct (Size h) as [|[|n]] eqn:Eh; [reflexivity | reflexivity |].
  rewrite bind_Done, sign_loop_spec.
  - now rewrite bind_Done.
  - rewrite length_digest_spec. cbn [New alg]. rewrite E, Eh.
    unfold PrivateKeySize. cbn [digestSize blockSize NewScheme2 s].
    now rewrite Eh.
Qed.

Lemma Verify_spec h c rd (pub msg sig : bytes) :
  let s := NewScheme2 h c rd in
  Verify s pub msg sig
  = if (length pub =? PublicKeySize s) && (length sig =? SignatureSize s)
    then
      match Size h with
      | 0 => Diverge
      | 1 => Panic
      | _ => Done (bytes_Equal
                     (digest h
                        (ver_bytes c (Size c) (drop (Size h) sig)
                           (digest_spec (New h) (take (Size h) sig) msg)))
                     pub)
      end
    else Done false.
Proof.
  intros s. unfold Verify.
  destruct (length pub =? PublicKeySize s) eqn:E1; [|reflexivity].
  destruct (length sig =? SignatureSize s) eqn:E2; [|reflexivity].
  apply Nat.eqb_eq in E2. cbn [negb orb andb]. unfold SignatureSize in E2.
  cbn [digestSize blockSize hashFunc chainFunc NewScheme2 s] in *.
  rewrite slice_to_Done, bind_Done by lia.
  rewrite messageDigest_by_length, length_take.
  replace (Size h `min` length sig) with (Size h) by lia.
  destruct (Size h) as [|[|n]] eqn:Eh; [reflexivity | reflexivity |].
  rewrite bind_Done, slice_from_Done, bind_Done by lia.
  rewrite verify_loop_spec.
  - rewrite bind_Done. reflexivity.
  - rewrite length_digest_spec, length_drop. cbn [New alg blockSize s
      NewScheme2]. rewrite Eh. lia.
Qed.

End SchemeFacts.

(** The chain part of a signature, segment by segment. *)
Lemma sig_bytes_imap (c : HashFunc) (bs : nat) : forall d key : bytes,
  sig_bytes c bs key d
  = concat (imap (fun i v =>
                    Nat.iter (Z.to_nat (byte.unsigned v)) (digest c)
                      (take bs (drop (i * bs) key))) d).
Proof.
  induction d as [|v d IH]; intros key; [reflexivity|].
  cbn [sig_bytes]. rewrite imap_cons. cbn [concat Nat.mul].
  rewrite drop_0, IH. do 2 f_equal.
  apply imap_ext. intros i x _. cbn. now rewrite drop_drop.
Qed.

Lemma sig_segments_length (c : HashFunc) (key d : bytes) :
  length key = length d * Size c ->
  Forall (fun seg => length seg = Size c)
    (imap (fun i v =>
             Nat.iter (Z.to_nat (byte.unsigned v)) (digest c)
               (take (Size c) (drop (i * Size c) key))) d).
Proof.
  intros L. apply Forall_lookup_2. intros i seg E.
  rewrite list_lookup_imap in E.
  apply fmap_Some in E as (v & Ev & ->). apply lookup_lt_Some in Ev.
  apply iter_digest_length. rewrite length_take, length_drop.
  assert (S i * Size c <= length d * Size c)
    by (apply Nat.mul_le_mono_r; lia).
  lia.
Qed.

Section SchemeTheorems.

Context {R : Type} `{Reader R}.

Implicit Types (h c : HashFunc) (rd : R).

Lemma GenerateKeyPair_spec h c rd :
  let s := NewScheme2 h c rd in
  GenerateKeyPair s
  = if (Size h <? 16) || (128 <? Size h) then
      Done (Err InvalidParameter, rd)
    else
      match io_ReadFull rd (PrivateKeySize s) with
      | (None, rd') => Done (Err RandomSourceFailure, rd')
      | (Some key, rd') =>
          Done (Ok (key, digest h (pub_bytes c (Size c) key (Size h + 2))),
                rd')
      end.
Proof.
  intros s. unfold GenerateKeyPair. cbn [digestSize rand NewScheme2 s].
  destruct ((Size h <? 16) || (128 <? Size h)); [reflexivity|].
  destruct (io_ReadFull rd (PrivateKeySize s)) as [[key|] rd'] eqn:E;
    [|reflexivity].
  apply io_ReadFull_length in E.
  pose proof (PublicKeyFromPrivate_spec h c rd key) as P. cbv zeta in P.
  fold s in P. rewrite P, (proj2 (Nat.eqb_eq _ _) E). reflexivity.
Qed.

Lemma size_match_ge2 {A} (n : nat) (x y z : A) :
  2 <= n ->
  match n with 0 => x | 1 => y | _ => z end = z.
Proof. destruct n as [|[|n]]; [lia | lia | reflexivity]. Qed.

Lemma Sign_Ok_inv h c rd (key msg sig key' : bytes) (rd' : R) :
  Sign (NewScheme2 h c rd) key msg = Done (Ok sig, key', rd') ->
  length key = PrivateKeySize (NewScheme2 h c rd)
  /\ 2 <= Size h
  /\ key' = key
  /\ exists r : bytes,
       io_ReadFull rd (Size h) = (Some r, rd')
       /\ length r = Size h
       /\ sig = r ++ sig_bytes c (Size c) key (digest_spec (New h) r msg).
Proof.
  intros E.
  pose proof (Sign_spec h c rd key msg) as S. cbv zeta in S.
  rewrite S in E. clear S.
  destruct (length key =? _) eqn:L; [|discriminate].
  apply Nat.eqb_eq in L.
  destruct (io_ReadFull rd (Size h)) as [[r|] rd1] eqn:Er; [|discriminate].
  pose proof (io_ReadFull_length _ _ _ _ Er) as Lr.
  destruct (Nat.le_gt_cases 2 (Size h)) as [G|G].
  - rewrite size_match_ge2 in E by exact G.
    injection E as E1 E2 E3. subst. eauto 10.
  - destruct (Size h) as [|[|n]]; [discriminate | discriminate | lia].
Qed.

Lemma Verify_ge2 h c rd (pub msg sig : bytes) :
  2 <= Size h ->
  length pub = Size h ->
  length sig = Size h + (Size h + 2) * Size c ->
  Verify (NewScheme2 h c rd) pub msg sig
  = Done (bytes_Equal
            (digest h
               (ver_bytes c (Size c) (drop (Size h) sig)
                  (digest_spec (New h) (take (Size h) sig) msg)))
            pub).
Proof.
  intros G Lp Ls.
  pose proof (Verify_spec h c rd pub msg sig) as V. cbv zeta in V.
  rewrite V. clear V. unfold PublicKeySize, SignatureSize.
  cbn [pubkeySize digestSize blockSize NewScheme2].
  rewrite (proj2 (Nat.eqb_eq _ _) Lp).
  rewrite (proj2 (Nat.eqb_eq _ _)) by lia.
  cbn [andb]. now apply size_match_ge2.
Qed.

(** C1, amended.  For every scheme whose hash output size is at least 2
    bytes, every private key of [PrivateKeySize()] bytes and every message:
    when the random source delivers the nonce, [Sign] returns a signature,
    [PublicKeyFromPrivate] returns a public key for the same private key, and
    [Verify] returns [true] for that public key, the same message and that
    signature. *)
Theorem sign_then_verify h c rd (key msg r : bytes) (rd' : R) :
  let s := NewScheme2 h c rd in
  2 <= digestSize s ->
  length key = PrivateKeySize s ->
  io_ReadFull rd (digestSize s) = (Some r, rd') ->
  exists sig pub : bytes,
    Sign s key msg = Done (Ok sig, key, rd')
    /\ PublicKeyFromPrivate s key = Done (Ok pub)
    /\ Verify s pub msg sig = Done true.
Proof.
  intros s G L Er. subst s. cbn [digestSize NewScheme2] in G, Er.
  pose proof (io_ReadFull_length _ _ _ _ Er) as Lr.
  set (d := digest_spec (New h) r msg).
  assert (Ld : length d = Size h + 2) by apply length_digest_spec.
  assert (Lk : length key = length d * Size c) by (rewrite Ld; exact L).
  exists (r ++ sig_bytes c (Size c) key d),
         (digest h (pub_bytes c (Size c) key (Size h + 2))).
  split; [|split].
  - pose proof (Sign_spec h c rd key msg) as S. cbv zeta in S.
    rewrite S, (proj2 (Nat.eqb_eq _ _) L), Er. clear S.
    now rewrite size_match_ge2 by exact G.
  - pose proof (PublicKeyFromPrivate_spec h c rd key) as P. cbv zeta in P.
    now rewrite P, (proj2 (Nat.eqb_eq _ _) L).
  - rewrite Verify_ge2.
    + rewrite take_app_length', drop_app_length' by congruence.
      fold d. rewrite ver_sig_bytes, Ld by exact Lk.
      now rewrite bytes_Equal_refl.
    + exact G.
    + apply digest_Size.
    + rewrite length_app, length_sig_bytes by exact Lk. lia.
Qed.

(** C5.  The three size functions are the stated functions of the configured
    hash output sizes.  A key pair returned by [GenerateKeyPair] has the
    lengths [PrivateKeySize()] and [PublicKeySize()], and for a hash output
    size in 16..128 and a random source that delivers, [GenerateKeyPair]
    does return one: the bytes read, with the public key that
    [PublicKeyFromPrivate] derives from them.  A signature returned by [Sign]
    has [SignatureSize()] bytes and is the nonce read from the random source
    followed by [digestSize + 2] chain segments of [blockSize] bytes each,
    segment [i] being segment [i] of the private key advanced by [hashBlock]
    as many steps as byte [i] of the message digest says; and for a hash
    output size of at least 2, a key of [PrivateKeySize()] bytes and a
    random source that delivers, [Sign] does return one. *)
Theorem sizes_and_layout h c rd :
  let s := NewScheme2 h c rd in
  digestSize s = Size h /\ blockSize s = Size c
  /\ PrivateKeySize s = (digestSize s + 2) * blockSize s
  /\ PublicKeySize s = digestSize s
  /\ SignatureSize s = digestSize s + (digestSize s + 2) * blockSize s
  /\ (forall (priv pub : bytes) (rd' : R),
        GenerateKeyPair s = Done (Ok (priv, pub), rd') ->
        length priv = PrivateKeySize s /\ length pub = PublicKeySize s)
  /\ (16 <= digestSize s <= 128 ->
      forall (priv : bytes) (rd' : R),
        io_ReadFull rd (PrivateKeySize s) = (Some priv, rd') ->
        exists pub : bytes,
          GenerateKeyPair s = Done (Ok (priv, pub), rd')
          /\ PublicKeyFromPrivate s priv = Done (Ok pub)
          /\ length priv = PrivateKeySize s
          /\ length pub = PublicKeySize s)
  /\ (forall (key msg sig key' : bytes) (rd' : R),
        Sign s key msg = Done (Ok sig, key', rd') ->
        length sig = SignatureSize s
        /\ exists (r d : bytes) (segs : list bytes),
             io_ReadFull rd (digestSize s) = (Some r, rd')
             /\ messageDigest (New h) r msg = Done d
             /\ segs = imap (fun i v =>
                               fst (hashBlock (New c)
                                      (take (blockSize s)
                                         (drop (i * blockSize s) key))
                                      (byte.unsigned v))) d
             /\ sig = r ++ concat segs
             /\ length r = digestSize s
             /\ length segs = digestSize s + 2
             /\ Forall (fun seg => length seg = blockSize s) segs)
  /\ (2 <= digestSize s ->
      forall (key msg r : bytes) (rd' : R),
        length key = PrivateKeySize s ->
        io_ReadFull rd (digestSize s) = (Some r, rd') ->
        exists sig : bytes,
          Sign s key msg = Done (Ok sig, key, rd')
          /\ take (digestSize s) sig = r
          /\ length sig = SignatureSize s).
Proof.
  intros s. subst s. unfold PublicKeySize, SignatureSize.
  cbn [pubkeySize digestSize blockSize NewScheme2].
  assert (Seg : forall key d : bytes,
            imap (fun i v =>
                    fst (hashBlock (New c)
                           (take (Size c) (drop (i * Size c) key))
                           (byte.unsigned v))) d
            = imap (fun i v =>
                      Nat.iter (Z.to_nat (byte.unsigned v)) (digest c)
                        (take (Size c) (drop (i * Size c) key))) d).
  { intros key d. apply imap_ext. intros i v _. apply hashBlock_fst. }
  split; [reflexivity|]. split; [reflexivity|]. split; [reflexivity|].
  split; [reflexivity|]. split; [lia|].
  pose proof (GenerateKeyPair_spec h c rd) as G. cbv zeta in G.
  split; [|split; [|split]].
  - intros priv pub rd' E. rewrite G in E. clear G.
    destruct ((Size h <? 16) || (128 <? Size h)); [discriminate|].
    destruct (io_ReadFull rd _) as [[k|] rd1] eqn:Ek; [|discriminate].
    apply io_ReadFull_length in Ek. injection E as E1 E2 E3. subst.
    split; [exact Ek | apply digest_Size].
  - intros [Lo Hi] priv rd' Er. rewrite G, Er. clear G.
    apply io_ReadFull_length in Er.
    rewrite (proj2 (Nat.ltb_ge _ _) Lo), (proj2 (Nat.ltb_ge _ _) Hi).
    cbn [orb].
    exists (digest h (pub_bytes c (Size c) priv (Size h + 2))).
    split; [reflexivity|]. split; [|split; [exact Er | apply digest_Size]].
    pose proof (PublicKeyFromPrivate_spec h c rd priv) as P. cbv zeta in P.
    now rewrite P, (proj2 (Nat.eqb_eq _ _) Er).
  - clear G. intros key msg sig key' rd' E.
    apply Sign_Ok_inv in E as (L & G & _ & r & Er & Lr & ->).
    unfold PrivateKeySize in L. cbn [digestSize blockSize NewScheme2] in L.
    set (d := digest_spec (New h) r msg).
    assert (Ld : length d = Size h + 2) by apply length_digest_spec.
    assert (Lk : length key = length d * Size c) by (rewrite Ld; exact L).
    split.
    + rewrite length_app, length_sig_bytes, Ld by exact Lk. lia.
    + exists r, d, (imap (fun i v =>
                            fst (hashBlock (New c)
                                   (take (Size c) (drop (i * Size c) key))
                                   (byte.unsigned v))) d).
      split; [exact Er|]. split; [apply messageDigest_spec; lia|].
      split; [reflexivity|]. rewrite Seg.
      split; [now rewrite sig_bytes_imap|]. split; [exact Lr|].
      split; [now rewrite length_imap|].
      now apply sig_segments_length.
  - clear G. intros G key msg r rd' L Er.
    pose proof (io_ReadFull_length _ _ _ _ Er) as Lr.
    pose proof (Sign_spec h c rd key msg) as S. cbv zeta in S.
    rewrite S, (proj2 (Nat.eqb_eq _ _) L), Er. clear S.
    rewrite size_match_ge2 by exact G.
    unfold PrivateKeySize in L. cbn [digestSize blockSize NewScheme2] in L.
    exists (r ++ sig_bytes c (Size c) key (digest_spec (New h) r msg)).
    split; [reflexivity|].
    split; [now rewrite take_app_length' by congruence|].
    rewrite length_app, length_sig_bytes, length_digest_spec.
    + cbn [New alg]. lia.
    + rewrite length_digest_spec. exact L.
Qed.

End SchemeTheorems.

Section ErrorTheorems.

Context {R : Type} `{Reader R}.

Implicit Types (h c : HashFunc) (rd : R).

(** C7, amended.  [Sign] returns [InvalidKeySize] and no signature when the
    private key length differs from [PrivateKeySize()], and
    [RandomSourceFailure] and no signature when the length is right and the
    random source fails to deliver the [digestSize] nonce bytes; when the
    length is right, the nonce is delivered and the hash output size is at
    least 2 bytes, it returns a signature.  [PublicKeyFromPrivate] returns
    [InvalidKeySize] exactly when its input length differs from
    [PrivateKeySize()], and a public key otherwise. *)
Theorem sign_and_derive_errors h c rd (key msg : bytes) :
  let s := NewScheme2 h c rd in
  (PublicKeyFromPrivate s key = Done (Err InvalidKeySize)
   <-> length key <> PrivateKeySize s)
  /\ ((exists pub : bytes, PublicKeyFromPrivate s key = Done (Ok pub))
      <-> length key = PrivateKeySize s)
  /\ (length key <> PrivateKeySize s ->
      Sign s key msg = Done (Err InvalidKeySize, key, rd))
  /\ (length key = PrivateKeySize s ->
      forall rd' : R,
      io_ReadFull rd (digestSize s) = (None, rd') ->
      Sign s key msg = Done (Err RandomSourceFailure, key, rd'))
  /\ (2 <= digestSize s ->
      length key = PrivateKeySize s ->
      forall (r : bytes) (rd' : R),
      io_ReadFull rd (digestSize s) = (Some r, rd') ->
      exists sig : bytes, Sign s key msg = Done (Ok sig, key, rd')).
Proof.
  intros s. subst s.
  pose proof (PublicKeyFromPrivate_spec h c rd key) as P. cbv zeta in P.
  pose proof (Sign_spec h c rd key msg) as S. cbv zeta in S.
  cbn [digestSize NewScheme2].
  destruct (length key =? PrivateKeySize (NewScheme2 h c rd)) eqn:L.
  - apply Nat.eqb_eq in L. rewrite P, S. repeat split.
    + discriminate.
    + intros N. now destruct N.
    + intros _. exact L.
    + eauto.
    + intros N. now destruct N.
    + intros _ rd' E. now rewrite E.
    + intros G _ r rd' E. rewrite E, size_match_ge2 by exact G. eauto.
  - apply Nat.eqb_neq in L. rewrite P, S. repeat split.
    + intros _. exact L.
    + intros [pub E]. discriminate.
    + intros E. now destruct L.
    + intros E. now destruct L.
    + intros _ E. now destruct L.
Qed.

(** C4, amended.  [Verify] returns [false] whenever the public key length
    differs from [PublicKeySize()] or the signature length differs from
    [SignatureSize()]; and under a scheme whose hash output size is at least
    2 bytes it returns a boolean for every public key, message and
    signature. *)
Theorem verify_returns_bool h c rd (pub msg sig : bytes) :
  let s := NewScheme2 h c rd in
  (length pub <> PublicKeySize s \/ length sig <> SignatureSize s ->
   Verify s pub msg sig = Done false)
  /\ (2 <= digestSize s -> exists b : bool, Verify s pub msg sig = Done b).
Proof.
  intros s. subst s.
  pose proof (Verify_spec h c rd pub msg sig) as V. cbv zeta in V.
  rewrite V. clear V. cbn [digestSize NewScheme2]. split.
  - intros [N|N]; apply Nat.eqb_neq in N; rewrite N;
      [reflexivity | now rewrite andb_false_r].
  - intros G. rewrite size_match_ge2 by exact G.
    destruct (_ && _); eauto.
Qed.

(** C6.  [NewScheme2] is a total function that records the sizes of its
    hash functions unchecked.  [GenerateKeyPair] always returns; it returns
    the [InvalidParameter] error if and only if the hash output size is below
    16 or above 128 bytes, and then without touching the random source.  In
    particular a scheme over an 8-byte hash answers the size queries and
    fails every key generation. *)
Theorem keygen_checks_hash_size h c rd :
  let s := NewScheme2 h c rd in
  digestSize s = Size h /\ blockSize s = Size c /\ pubkeySize s = Size h
  /\ NewScheme h rd = NewScheme2 h h rd
  /\ (exists res rd', GenerateKeyPair s = Done (res, rd'))
  /\ ((exists rd' : R, GenerateKeyPair s = Done (Err InvalidParameter, rd'))
      <-> (Size h < 16 \/ 128 < Size h))
  /\ (Size h < 16 \/ 128 < Size h ->
      GenerateKeyPair s = Done (Err InvalidParameter, rd))
  /\ (Size h = 8 ->
      PrivateKeySize s = 10 * Size c /\ PublicKeySize s = 8
      /\ SignatureSize s = 10 * Size c + 8
      /\ GenerateKeyPair s = Done (Err InvalidParameter, rd)).
Proof.
  intros s. subst s.
  pose proof (GenerateKeyPair_spec h c rd) as G. cbv zeta in G.
  do 4 (split; [reflexivity|]).
  assert (B : (Size h <? 16) || (128 <? Size h) = true
              <-> (Size h < 16 \/ 128 < Size h)).
  { rewrite orb_true_iff, !Nat.ltb_lt. reflexivity. }
  split; [|split; [|split]].
  - rewrite G. destruct (_ || _); [eauto|].
    destruct (io_ReadFull rd _) as [[k|] rd1]; eauto.
  - rewrite G. rewrite <- B. destruct (_ || _); split; eauto.
    + intros [rd' E].
      destruct (io_ReadFull rd _) as [[k|] rd1]; discriminate.
    + discriminate.
  - intros O. apply B in O. now rewrite G, O.
  - intros E. unfold PrivateKeySize, PublicKeySize, SignatureSize.
    cbn [digestSize blockSize pubkeySize NewScheme2]. rewrite E.
    repeat split.
    rewrite G, E. reflexivity.
Qed.

End ErrorTheorems.

(** ** The digest, its safety and its checksum *)

(** C2, amended.  For every nonce [r] of at least 2 bytes and every message,
    [messageDigest] feeds into the hash, in this order, [r], every full
    [len(r)]-byte block of the message XORed with [r], the last partial
    block padded with one [0x80] byte and zeros to [len(r)] bytes and XORed
    with [r], and the 2-byte big-endian encoding of [len(r)]; it returns the
    digest [d] of that followed by the sum of [256 - d[i]] modulo [2^16] as
    2 big-endian bytes: the hash output size plus 2 bytes, which is
    [len(r) + 2] when the nonce has the length of the hash output. *)
Theorem messageDigest_refines (hh : Hash) (r msg : bytes) :
  2 <= length r ->
  messageDigest hh r msg = Done (digest_spec hh r msg)
  /\ digest_spec hh r msg
     = (let d := digest (alg hh) (written hh ++ digest_feed r msg) in
        d ++ be16 (complement_sum d mod 2 ^ 16))
  /\ length (digest_spec hh r msg) = Size (alg hh) + 2
  /\ (length r = Size (alg hh) ->
      length (digest_spec hh r msg) = length r + 2)
  /\ ((Z.of_nat (length r) < 65536)%Z ->
      map byte.unsigned (be16 (Z.of_nat (length r)))
      = [Z.of_nat (length r) / 256; Z.of_nat (length r) mod 256]%Z).
Proof.
  intros G. split; [now apply messageDigest_spec|].
  split; [reflexivity|]. rewrite length_digest_spec. split; [reflexivity|].
  split; [intros ->; reflexivity|].
  intros B. unfold be16. cbn [map]. rewrite !byte.unsigned_of_Z.
  unfold byte.wrap. change (2 ^ 8)%Z with 256%Z.
  rewrite (Z.mod_small (Z.of_nat (length r) / 256) 256)
    by (split; [apply Z.div_pos; lia | apply Z.div_lt_upper_bound; lia]).
  reflexivity.
Qed.

(** C9.  For every nonce of at least 2 bytes and every message,
    [messageDigest] returns: no index or slice is out of range and the block
    loop ends within one turn per message byte.  The block loop leaves the
    padding buffer [len(r)] bytes long and fewer than [len(r)] bytes of the
    message, so the [0x80] byte at index [len(msg)] and the two length bytes
    at indices 0 and 1 are stored in range. *)
Theorem messageDigest_in_bounds (hh : Hash) (r msg : bytes) :
  2 <= length r ->
  (exists (h' : Hash) (tmp rest : bytes),
      block_loop (S (length msg)) (Write hh r) r
        (replicate (length r) Byte.x00) msg = Done (h', tmp, rest)
      /\ length tmp = length r
      /\ length rest < length r
      /\ (exists t : bytes,
            store (copy (replicate (length tmp) Byte.x00) rest)
              (length rest) Byte.x80 = Done t
            /\ length t = length r)
      /\ (forall (t : bytes) (a b : byte),
            length t = length r ->
            exists t' : bytes,
              (t0 ← store t 0 a; store t0 1 b) = Done t'))
  /\ (exists out : bytes, messageDigest hh r msg = Done out)
  /\ (forall fuel : nat,
        length msg < fuel ->
        messageDigest_fuel fuel hh r msg = messageDigest hh r msg).
Proof.
  intros G. split; [|split].
  - rewrite block_loop_spec by (rewrite ?length_replicate; lia).
    do 3 eexists. split; [reflexivity|].
    assert (Lt : length (tmp_after r (replicate (length r) Byte.x00) msg)
                 = length r) by apply length_tmp_after, length_replicate.
    assert (Lr : length (last_partial (length r) msg) < length r)
      by (apply length_last_partial; lia).
    split; [exact Lt|]. split; [exact Lr|]. split.
    + rewrite Lt, copy_into_zeros by lia.
      rewrite store_Done by (rewrite length_app, length_replicate; lia).
      eexists. split; [reflexivity|].
      rewrite length_insert, length_app, length_replicate. lia.
    + intros t a b L. rewrite store_Done, bind_Done by lia.
      rewrite store_Done by (rewrite length_insert; lia). eauto.
  - eexists. now apply messageDigest_spec.
  - intros fuel L. now apply messageDigest_fuel_enough.
Qed.

Lemma be16_value (z : Z) :
  (0 <= z < 65536)%Z ->
  (256 * byte.unsigned (byte.of_Z (Z.shiftr z 8)) + byte.unsigned (byte.of_Z z)
   = z)%Z.
Proof.
  intros B. rewrite !byte.unsigned_of_Z. unfold byte.wrap.
  rewrite Z.shiftr_div_pow2 by lia.
  change (2 ^ 8)%Z with 256%Z.
  rewrite (Z.mod_small (z / 256) 256)
    by (split; [apply Z.div_pos; lia | apply Z.div_lt_upper_bound; lia]).
  pose proof (Z.div_mod z 256). lia.
Qed.

(** The [uint16] sum over a digest of at most 128 bytes is the integer sum:
    no addition wraps around. *)
Lemma checksum_no_wrap (d : bytes) :
  length d <= 128 ->
  checksum d = complement_sum d
  /\ (Z.of_nat (length d) <= complement_sum d <= 256 * Z.of_nat (length d))%Z
  /\ (256 * Z.of_nat (length d) <= 32768)%Z.
Proof.
  intros L. pose proof (complement_sum_bounds d) as B.
  split; [|lia]. rewrite checksum_spec. apply Z.mod_small. lia.
Qed.

(** C10.  Whenever [messageDigest] returns on a nonce of the hash output
    size, as [Sign] and [Verify] call it, under a hash of at most 128 bytes,
    its output is the digest [d] followed by two bytes, where the sum of
    [256 - d[i]] over the bytes of [d] lies between [len(d)] and
    [256 * len(d) <= 32768]; the [uint16] sum the code computes is that
    integer, without wrap-around; the two bytes appended encode it exactly;
    and it is not zero. *)
Theorem checksum_exact (hh : Hash) (r msg out : bytes) :
  length r = Size (alg hh) ->
  Size (alg hh) <= 128 ->
  messageDigest hh r msg = Done out ->
  exists (d : bytes) (hi lo : byte),
    d = digest (alg hh) (written hh ++ digest_feed r msg)
    /\ out = d ++ [hi; lo]
    /\ hi = byte.of_Z (Z.shiftr (checksum d) 8)
    /\ lo = byte.of_Z (checksum d)
    /\ 2 <= length d <= 128
    /\ (Z.of_nat (length d) <= complement_sum d <= 256 * Z.of_nat (length d))%Z
    /\ (256 * Z.of_nat (length d) <= 32768)%Z
    /\ checksum d = complement_sum d
    /\ (0 <= checksum d < 2 ^ 16)%Z
    /\ (256 * byte.unsigned hi + byte.unsigned lo = complement_sum d)%Z
    /\ checksum d <> 0%Z.
Proof.
  intros Lr Hs E. apply messageDigest_returns_iff in E as [G ->].
  unfold digest_spec, with_checksum.
  set (d := digest (alg hh) (written hh ++ digest_feed r msg)).
  assert (Ld : length d = Size (alg hh)) by apply digest_Size.
  destruct (checksum_no_wrap d) as (E & B & M); [lia|].
  exists d, (byte.of_Z (Z.shiftr (checksum d) 8)), (byte.of_Z (checksum d)).
  split; [reflexivity|].
  split; [now rewrite be16_shift, checksum_spec|].
  split; [reflexivity|]. split; [reflexivity|].
  split; [lia|]. split; [exact B|]. split; [exact M|]. split; [exact E|].
  rewrite E. split; [lia|]. split; [|lia].
  apply be16_value. lia.
Qed.

(** ** The private key after signing *)

Section KeyAfterSign.

Context {R : Type} `{Reader R}.

Implicit Types (h c : HashFunc) (rd : R).

Lemma Legacy_Sign_inv h rd (k k' : Legacy.PrivateKey)
  (msg r sig arr : bytes) (rd1 rd' : R) :
  io_ReadFull rd (Size h) = (Some r, rd1) ->
  Legacy.Sign (Legacy.NewScheme h rd) k msg = Done (sig, k', arr, rd') ->
  2 <= Size h
  /\ k' = {| Legacy.PublicKey := Legacy.PublicKey k; Legacy.B := [] |}
  /\ arr = replicate (length (Legacy.B k)) Byte.x00
  /\ rd' = rd1.
Proof.
  intros Er E. unfold Legacy.Sign in E.
  cbn [Legacy.rand Legacy.blockSize Legacy.hashFunc Legacy.NewScheme] in E.
  rewrite Er in E. apply io_ReadFull_length in Er.
  apply bind_is_Done in E as (d & Ed & E).
  apply messageDigest_returns_iff in Ed as [G ->].
  apply bind_is_Done in E as (sg & _ & E).
  rewrite zero_range_spec, bind_Done in E by reflexivity.
  injection E as E1 E2 E3 E4. subst. repeat split. lia.
Qed.

Lemma Legacy_Sign_consumed h rd (pub msg sig arr : bytes)
  (k' : Legacy.PrivateKey) (rd' : R) :
  2 <= Size h ->
  Legacy.Sign (Legacy.NewScheme h rd)
    {| Legacy.PublicKey := pub; Legacy.B := [] |} msg
  = Done (sig, k', arr, rd') ->
  sig = [].
Proof.
  intros G E. unfold Legacy.Sign in E.
  cbn [Legacy.rand Legacy.blockSize Legacy.hashFunc Legacy.NewScheme
       Legacy.B] in E.
  destruct (io_ReadFull rd (Size h)) as [[r|] rd1] eqn:Er.
  - apply io_ReadFull_length in Er.
    rewrite messageDigest_spec, bind_Done in E by lia.
    pose proof (length_digest_spec (New h) r msg) as Ld.
    destruct (digest_spec (New h) r msg) as [|v d]; [cbn in Ld; lia|].
    cbn [Legacy.sign_loop] in E. unfold slice_to in E.
    cbn [Legacy.blockSize Legacy.NewScheme length] in E.
    rewrite (proj2 (Nat.leb_gt _ _)) in E by lia. discriminate.
  - now injection E as <- _ _ _.
Qed.

(** C3, amended.  [Sign] of [wots.go] does not touch the private key: after
    a call that returned a signature the key buffer holds the bytes it held
    before, nothing marks the key as used, and a further [Sign] call on the
    same key returns a signature again whenever the random source delivers a
    nonce.  Only [Sign] of the superseded API destroys the key: when it got
    its nonce and returned, every byte of the array behind [k.B] is zero and
    [k.B] is nil, and any further [Sign] call on that key object returns no
    signature. *)
Theorem sign_and_the_key h c rd (key msg : bytes) :
  (forall (sig key' : bytes) (rd' : R),
     Sign (NewScheme2 h c rd) key msg = Done (Ok sig, key', rd') ->
     key' = key
     /\ forall (msg2 r2 : bytes) (rd2 : R),
          io_ReadFull rd' (Size h) = (Some r2, rd2) ->
          exists sig2 : bytes,
            Sign (NewScheme2 h c rd') key' msg2 = Done (Ok sig2, key, rd2))
  /\ (forall (pub r sig arr : bytes) (k' : Legacy.PrivateKey) (rd1 rd' : R),
        io_ReadFull rd (Size h) = (Some r, rd1) ->
        Legacy.Sign (Legacy.NewScheme h rd)
          {| Legacy.PublicKey := pub; Legacy.B := key |} msg
        = Done (sig, k', arr, rd') ->
        Legacy.B k' = []
        /\ arr = replicate (length key) Byte.x00
        /\ forall (msg2 sig2 arr2 : bytes) (k2 : Legacy.PrivateKey) (rd2 : R),
             Legacy.Sign (Legacy.NewScheme h rd') k' msg2
             = Done (sig2, k2, arr2, rd2) ->
             sig2 = []).
Proof.
  split.
  - intros sig key' rd' E.
    apply Sign_Ok_inv in E as (L & G & -> & _). split; [reflexivity|].
    intros msg2 r2 rd2 E2.
    pose proof (Sign_spec h c rd' key msg2) as S. cbv zeta in S.
    rewrite S, E2, size_match_ge2 by exact G.
    change (PrivateKeySize (NewScheme2 h c rd'))
      with (PrivateKeySize (NewScheme2 h c rd)).
    rewrite (proj2 (Nat.eqb_eq _ _) L). eauto.
  - intros pub r sig arr k' rd1 rd' Er E.
    destruct (Legacy_Sign_inv _ _ _ _ _ _ _ _ _ _ Er E) as (G & -> & -> & _).
    cbn [Legacy.B Legacy.PublicKey]. repeat split.
    intros msg2 sig2 arr2 k2 rd2 E2.
    now apply Legacy_Sign_consumed in E2.
Qed.

End KeyAfterSign.

(** ** The theorems at the sample inputs *)

Lemma sign_then_verify_sample :
  2 <= digestSize sample_scheme
  /\ length sample_key = PrivateKeySize sample_scheme
  /\ io_ReadFull zeroReader (digestSize sample_scheme)
     = (Some (replicate 16 Byte.x00), zeroReader)
  /\ exists sig pub : bytes,
       Sign sample_scheme sample_key hello
       = Done (Ok sig, sample_key, zeroReader)
       /\ PublicKeyFromPrivate sample_scheme sample_key = Done (Ok pub)
       /\ Verify sample_scheme pub hello sig = Done true.
Proof.
  split; [vm_compute; lia|]. split; [vm_compute; reflexivity|].
  split; [vm_compute; reflexivity|].
  apply (sign_then_verify (toyHash 16) (toyHash 4) zeroReader sample_key
           hello (replicate 16 Byte.x00) zeroReader).
  - vm_compute. lia.
  - vm_compute. reflexivity.
  - vm_compute. reflexivity.
Defined.

Lemma messageDigest_refines_sample :
  2 <= length (replicate 16 Byte.x2a)
  /\ messageDigest (New (toyHash 16)) (replicate 16 Byte.x2a) hello
     = Done (digest_spec (New (toyHash 16)) (replicate 16 Byte.x2a) hello).
Proof.
  split; [vm_compute; lia|].
  apply (messageDigest_refines (New (toyHash 16)) (replicate 16 Byte.x2a)
           hello).
  vm_compute. lia.
Defined.

Lemma messageDigest_in_bounds_sample :
  2 <= length [Byte.x01; Byte.x02]
  /\ exists out : bytes,
       messageDigest (New (toyHash 16)) [Byte.x01; Byte.x02] hello = Done out.
Proof.
  split; [vm_compute; lia|].
  apply (messageDigest_in_bounds (New (toyHash 16)) [Byte.x01; Byte.x02]
           hello).
  vm_compute. lia.
Defined.

Lemma checksum_exact_sample :
  length (replicate 16 Byte.x2a) = Size (alg (New (toyHash 16)))
  /\ Size (alg (New (toyHash 16))) <= 128
  /\ messageDigest (New (toyHash 16)) (replicate 16 Byte.x2a) hello
     = Done (digest_spec (New (toyHash 16)) (replicate 16 Byte.x2a) hello)
  /\ exists (d : bytes) (hi lo : byte),
       d = digest (toyHash 16) ([] ++ digest_feed (replicate 16 Byte.x2a) hello)
       /\ digest_spec (New (toyHash 16)) (replicate 16 Byte.x2a) hello
          = d ++ [hi; lo]
       /\ hi = byte.of_Z (Z.shiftr (checksum d) 8)
       /\ lo = byte.of_Z (checksum d)
       /\ 2 <= length d <= 128
       /\ (Z.of_nat (length d) <= complement_sum d
           <= 256 * Z.of_nat (length d))%Z
       /\ (256 * Z.of_nat (length d) <= 32768)%Z
       /\ checksum d = complement_sum d
       /\ (0 <= checksum d < 2 ^ 16)%Z
       /\ (256 * byte.unsigned hi + byte.unsigned lo = complement_sum d)%Z
       /\ checksum d <> 0%Z.
Proof.
  assert (E : messageDigest (New (toyHash 16)) (replicate 16 Byte.x2a) hello
              = Done (digest_spec (New (toyHash 16)) (replicate 16 Byte.x2a)
                        hello))
    by (vm_compute; reflexivity).
  split; [vm_compute; reflexivity|]. split; [vm_compute; lia|].
  split; [exact E|].
  apply (checksum_exact (New (toyHash 16)) (replicate 16 Byte.x2a) hello
           (digest_spec (New (toyHash 16)) (replicate 16 Byte.x2a) hello)).
  - vm_compute. reflexivity.
  - vm_compute. lia.
  - exact E.
Defined.

Lemma sizes_and_layout_sample :
  GenerateKeyPair sample_scheme = Done (Ok (zero_key, zero_pub), zeroReader)
  /\ length zero_key = PrivateKeySize sample_scheme
  /\ length zero_pub = PublicKeySize sample_scheme
  /\ (exists pub : bytes,
        GenerateKeyPair sample_scheme = Done (Ok (zero_key, pub), zeroReader)
        /\ PublicKeyFromPrivate sample_scheme zero_key = Done (Ok pub)
        /\ length zero_key = PrivateKeySize sample_scheme
        /\ length pub = PublicKeySize sample_scheme)
  /\ Sign sample_scheme sample_key hello
     = Done (Ok sample_sig, sample_key, zeroReader)
  /\ length sample_sig = SignatureSize sample_scheme
  /\ exists (r d : bytes) (segs : list bytes),
       io_ReadFull zeroReader (digestSize sample_scheme) = (Some r, zeroReader)
       /\ messageDigest (New (toyHash 16)) r hello = Done d
       /\ segs = imap (fun i v =>
                         fst (hashBlock (New (toyHash 4))
                                (take (blockSize sample_scheme)
                                   (drop (i * blockSize sample_scheme)
                                      sample_key))
                                (byte.unsigned v))) d
       /\ sample_sig = r ++ concat segs
       /\ length r = digestSize sample_scheme
       /\ length segs = digestSize sample_scheme + 2
       /\ Forall (fun seg => length seg = blockSize sample_scheme) segs.
Proof.
  assert (K : GenerateKeyPair sample_scheme
              = Done (Ok (zero_key, zero_pub), zeroReader))
    by (vm_compute; reflexivity).
  assert (E : Sign sample_scheme sample_key hello
              = Done (Ok sample_sig, sample_key, zeroReader))
    by (vm_compute; reflexivity).
  destruct (sizes_and_layout (toyHash 16) (toyHash 4) zeroReader)
    as (_ & _ & _ & _ & _ & L & G & S & _).
  split; [exact K|].
  split; [exact (proj1 (L zero_key zero_pub zeroReader K))|].
  split; [exact (proj2 (L zero_key zero_pub zeroReader K))|].
  split.
  - apply (G ltac:(vm_compute; lia) zero_key zeroReader).
    vm_compute. reflexivity.
  - split; [exact E|].
    exact (S sample_key hello sample_sig sample_key zeroReader E).
Defined.

Lemma sign_and_derive_errors_sample :
  (exists sig : bytes,
     Sign sample_scheme sample_key hello = Done (Ok sig, sample_key, zeroReader))
  /\ Sign sample_scheme (take 71 sample_key) hello
     = Done (Err InvalidKeySize, take 71 sample_key, zeroReader)
  /\ Sign (NewScheme2 (toyHash 16) (toyHash 4) (take 15 sample_key))
       sample_key hello
     = Done (Err RandomSourceFailure, sample_key, [])
  /\ PublicKeyFromPrivate sample_scheme (take 71 sample_key)
     = Done (Err InvalidKeySize).
Proof.
  destruct (sign_and_derive_errors (toyHash 16) (toyHash 4) zeroReader
              sample_key hello) as (_ & _ & _ & _ & S).
  destruct (sign_and_derive_errors (toyHash 16) (toyHash 4) zeroReader
              (take 71 sample_key) hello) as (P & _ & K & _).
  destruct (sign_and_derive_errors (toyHash 16) (toyHash 4)
              (take 15 sample_key) sample_key hello) as (_ & _ & _ & F & _).
  split; [|split; [|split]].
  - apply (S ltac:(vm_compute; lia) ltac:(vm_compute; reflexivity)
             (replicate 16 Byte.x00) zeroReader).
    vm_compute. reflexivity.
  - apply K. vm_compute. lia.
  - apply F; vm_compute; reflexivity.
  - apply P. vm_compute. lia.
Defined.

Lemma verify_returns_bool_sample :
  (exists b : bool,
     Verify sample_scheme (replicate 16 Byte.x00) hello sample_sig = Done b)
  /\ Verify sample_scheme (replicate 15 Byte.x00) hello sample_sig
     = Done false.
Proof.
  destruct (verify_returns_bool (toyHash 16) (toyHash 4) zeroReader
              (replicate 16 Byte.x00) hello sample_sig) as (_ & B).
  destruct (verify_returns_bool (toyHash 16) (toyHash 4) zeroReader
              (replicate 15 Byte.x00) hello sample_sig) as (F & _).
  split.
  - apply B. vm_compute. lia.
  - apply F. left. vm_compute. lia.
Defined.

Lemma keygen_checks_hash_size_sample :
  PrivateKeySize eight_byte_scheme = 80
  /\ PublicKeySize eight_byte_scheme = 8
  /\ SignatureSize eight_byte_scheme = 88
  /\ GenerateKeyPair eight_byte_scheme = Done (Err InvalidParameter, zeroReader).
Proof.
  destruct (keygen_checks_hash_size (toyHash 8) (toyHash 8) zeroReader)
    as (_ & _ & _ & _ & _ & _ & _ & E).
  exact (E eq_refl).
Defined.

Lemma sign_and_the_key_sample :
  (exists sig2 : bytes,
     Sign sample_scheme sample_key hello_again
     = Done (Ok sig2, sample_key, zeroReader))
  /\ Legacy.Sign legacy_scheme legacy_key hello
     = Done (legacy_sig, {| Legacy.PublicKey := []; Legacy.B := [] |},
             replicate 24 Byte.x00, zeroReader)
  /\ forall (msg2 sig2 arr2 : bytes) (k2 : Legacy.PrivateKey) (rd2 : devZero),
       Legacy.Sign legacy_scheme
         {| Legacy.PublicKey := []; Legacy.B := [] |} msg2
       = Done (sig2, k2, arr2, rd2) ->
       sig2 = [].
Proof.
  destruct (sign_and_the_key (toyHash 16) (toyHash 4) zeroReader sample_key
              hello) as (S & _).
  destruct (sign_and_the_key (toyHash 4) (toyHash 4) zeroReader
              (take 24 sample_key) hello) as (_ & L).
  assert (E : Legacy.Sign legacy_scheme legacy_key hello
              = Done (legacy_sig,
                      {| Legacy.PublicKey := []; Legacy.B := [] |},
                      replicate 24 Byte.x00, zeroReader))
    by (vm_compute; reflexivity).
  split; [|split; [exact E|]].
  - destruct (S sample_sig sample_key zeroReader
                ltac:(vm_compute; reflexivity)) as (_ & S2).
    apply (S2 hello_again (replicate 16 Byte.x00) zeroReader).
    vm_compute. reflexivity.
  - destruct (L [] (replicate 4 Byte.x00) legacy_sig (replicate 24 Byte.x00)
                {| Legacy.PublicKey := []; Legacy.B := [] |}
                zeroReader zeroReader
                ltac:(vm_compute; reflexivity) E) as (_ & _ & L2).
    exact L2.
Defined.

(** ** Where the statements of the specification stop holding *)

(** C1: under a scheme over a 1-byte hash, with a private key of
    [PrivateKeySize()] bytes and a random source that delivers the nonce,
    [Sign] panics, so that there is no signature to verify, although
    [PublicKeyFromPrivate] returns a public key; and [Verify] with that
    public key panics on a byte string of [SignatureSize()] bytes.  Over a
    0-byte hash neither [Sign] nor [Verify] returns. *)
Lemma sign_then_verify_tiny_hash :
  length [Byte.x01; Byte.x02; Byte.x03] = PrivateKeySize one_byte_scheme
  /\ io_ReadFull zeroReader (digestSize one_byte_scheme)
     = (Some [Byte.x00], zeroReader)
  /\ PublicKeyFromPrivate one_byte_scheme [Byte.x01; Byte.x02; Byte.x03]
     = Done (Ok one_byte_pub)
  /\ Sign one_byte_scheme [Byte.x01; Byte.x02; Byte.x03] hello = Panic
  /\ Verify one_byte_scheme one_byte_pub hello
       [Byte.x00; Byte.x01; Byte.x02; Byte.x03] = Panic
  /\ length [Byte.x01; Byte.x02] = PrivateKeySize zero_byte_scheme
  /\ Sign zero_byte_scheme [Byte.x01; Byte.x02] hello = Diverge
  /\ Verify zero_byte_scheme [] hello [Byte.x01; Byte.x02] = Diverge.
Proof. vm_compute. repeat split. Qed.

(** C2: on a 1-byte nonce, the length of the output of a 1-byte hash,
    [messageDigest] panics at [tmp[1] = uint8(rlen)]; on an empty nonce the
    block loop never ends. *)
Lemma messageDigest_short_nonce :
  length [Byte.x2a] = Size (alg (New (toyHash 1)))
  /\ messageDigest (New (toyHash 1)) [Byte.x2a] hello = Panic
  /\ messageDigest (New (toyHash 0)) [] hello = Diverge.
Proof. vm_compute. repeat split. Qed.

(** C3: [Sign] of [wots.go] returns a signature, leaves the key as it was,
    its first byte still [0x03], and signs a second message with it; both
    signatures verify under the public key of that key. *)
Lemma sign_twice_with_one_key :
  Sign sample_scheme sample_key hello
  = Done (Ok sample_sig, sample_key, zeroReader)
  /\ sample_key !! 0 = Some Byte.x03
  /\ Sign sample_scheme sample_key hello_again
     = Done (Ok sample_sig_again, sample_key, zeroReader)
  /\ PublicKeyFromPrivate sample_scheme sample_key = Done (Ok sample_pub)
  /\ Verify sample_scheme sample_pub hello sample_sig = Done true
  /\ Verify sample_scheme sample_pub hello_again sample_sig_again = Done true.
Proof. vm_compute. repeat split. Qed.

(** C4: under a scheme over a 1-byte hash [Verify] panics on inputs of the
    right lengths; over a 0-byte hash it does not return. *)
Lemma verify_tiny_hash :
  length [Byte.x00] = PublicKeySize one_byte_scheme
  /\ length [Byte.x00; Byte.x00; Byte.x00; Byte.x00]
     = SignatureSize one_byte_scheme
  /\ Verify one_byte_scheme [Byte.x00] hello
       [Byte.x00; Byte.x00; Byte.x00; Byte.x00] = Panic
  /\ Verify zero_byte_scheme [] hello [Byte.x00; Byte.x00] = Diverge.
Proof. vm_compute. repeat split. Qed.

(** C7: under a scheme over a 1-byte hash, with a key of the right length and
    a reader that delivers, [Sign] panics instead of succeeding. *)
Lemma sign_tiny_hash :
  length [Byte.x01; Byte.x02; Byte.x03] = PrivateKeySize one_byte_scheme
  /\ io_ReadFull zeroReader (digestSize one_byte_scheme)
     = (Some [Byte.x00], zeroReader)
  /\ Sign one_byte_scheme [Byte.x01; Byte.x02; Byte.x03] hello = Panic
  /\ Sign zero_byte_scheme [Byte.x01; Byte.x02] hello = Diverge.
Proof. vm_compute. repeat split. Qed.

(** * Further properties of the package *)

(** ** Chains compose *)

(** X1.  Advancing a block [m] steps and the result [n] more steps, with any
    two hash objects of the same algorithm, is advancing it [m + n] steps;
    and a block of the hash output size keeps that length however far it is
    advanced. *)
Theorem hashBlock_composes (h h' : Hash) (x : bytes) (m n : Z) :
  (0 <= m)%Z -> (0 <= n)%Z -> alg h' = alg h ->
  fst (hashBlock h' (fst (hashBlock h x m)) n) = fst (hashBlock h x (m + n))
  /\ (length x = Size (alg h) ->
      length (fst (hashBlock h x m)) = Size (alg h)).
Proof.
  intros Hm Hn A. rewrite !hashBlock_fst, A. split.
  - rewrite Z2Nat.inj_add, (Nat.add_comm (Z.to_nat m)) by lia.
    now rewrite Nat.iter_add.
  - apply iter_digest_length.
Qed.

Lemma hashBlock_composes_sample :
  fst (hashBlock (New (toyHash 4)) (fst (hashBlock (New (toyHash 4)) hello 7))
         249)
  = fst (hashBlock (New (toyHash 4)) hello 256).
Proof.
  apply (hashBlock_composes (New (toyHash 4)) (New (toyHash 4)) hello 7 249);
    [lia | lia | reflexivity].
Defined.

(** ** Generated keys, signatures and verification *)

Section KeyPairs.

Context {R : Type} `{Reader R}.

Implicit Types (h c : HashFunc) (rd : R).

(** What [Verify] computes on the output of a successful [Sign]. *)
Lemma Verify_signed h c rd (key r msg pub : bytes) :
  2 <= Size h ->
  length key = (Size h + 2) * Size c ->
  length r = Size h ->
  length pub = Size h ->
  Verify (NewScheme2 h c rd) pub msg
    (r ++ sig_bytes c (Size c) key (digest_spec (New h) r msg))
  = Done (bytes_Equal (digest h (pub_bytes c (Size c) key (Size h + 2))) pub).
Proof.
  intros G Lk Lr Lp.
  set (d := digest_spec (New h) r msg).
  assert (Ld : length d = Size h + 2) by apply length_digest_spec.
  assert (Lk' : length key = length d * Size c) by (rewrite Ld; exact Lk).
  rewrite Verify_ge2.
  - rewrite take_app_length', drop_app_length' by congruence.
    fold d. now rewrite ver_sig_bytes, Ld by exact Lk'.
  - exact G.
  - exact Lp.
  - rewrite length_app, length_sig_bytes by exact Lk'. lia.
Qed.

Lemma GenerateKeyPair_Ok_inv h c rd (priv pub : bytes) (rd1 : R) :
  GenerateKeyPair (NewScheme2 h c rd) = Done (Ok (priv, pub), rd1) ->
  16 <= Size h <= 128
  /\ io_ReadFull rd ((Size h + 2) * Size c) = (Some priv, rd1)
  /\ length priv = (Size h + 2) * Size c
  /\ pub = digest h (pub_bytes c (Size c) priv (Size h + 2)).
Proof.
  intros E.
  pose proof (GenerateKeyPair_spec h c rd) as G. cbv zeta in G.
  rewrite G in E. clear G.
  destruct ((Size h <? 16) || (128 <? Size h)) eqn:B; [discriminate|].
  apply orb_false_iff in B as [B1 B2].
  apply Nat.ltb_ge in B1, B2.
  change (PrivateKeySize (NewScheme2 h c rd)) with ((Size h + 2) * Size c)
    in E.
  destruct (io_ReadFull rd _) as [[k|] rd'] eqn:Ek; [|discriminate].
  injection E as E1 E2 E3. subst.
  pose proof (io_ReadFull_length _ _ _ _ Ek). auto.
Qed.

(** X2.  A key pair returned by [GenerateKeyPair] signs and verifies: when
    [Sign] returns a signature for the private key, [Verify] returns [true]
    for the public key, the same message and that signature. *)
Theorem keygen_sign_verify h c rd (priv pub msg sig key' : bytes)
  (rd1 rd2 : R) :
  GenerateKeyPair (NewScheme2 h c rd) = Done (Ok (priv, pub), rd1) ->
  Sign (NewScheme2 h c rd1) priv msg = Done (Ok sig, key', rd2) ->
  Verify (NewScheme2 h c rd2) pub msg sig = Done true.
Proof.
  intros G S.
  apply GenerateKeyPair_Ok_inv in G as (B & _ & Lk & ->).
  apply Sign_Ok_inv in S as (_ & _ & _ & r & _ & Lr & ->).
  rewrite Verify_signed by (try apply digest_Size; lia || assumption).
  now rewrite bytes_Equal_refl.
Qed.

(** X3.  What [GenerateKeyPair] returns when the hash output size is in
    range: [RandomSourceFailure] and no key when the random source fails to
    deliver [PrivateKeySize()] bytes; otherwise the bytes read, as the
    private key, with the public key that [PublicKeyFromPrivate] derives from
    them.  [Sign] then never rejects that private key: it returns a signature
    or [RandomSourceFailure]. *)
Theorem keygen_outcomes h c rd :
  16 <= Size h <= 128 ->
  let s := NewScheme2 h c rd in
  (forall rd1 : R,
     io_ReadFull rd (PrivateKeySize s) = (None, rd1) ->
     GenerateKeyPair s = Done (Err RandomSourceFailure, rd1))
  /\ (forall (priv : bytes) (rd1 : R),
       io_ReadFull rd (PrivateKeySize s) = (Some priv, rd1) ->
       exists pub : bytes,
         GenerateKeyPair s = Done (Ok (priv, pub), rd1)
         /\ PublicKeyFromPrivate s priv = Done (Ok pub)
         /\ length priv = PrivateKeySize s
         /\ length pub = PublicKeySize s
         /\ forall msg : bytes,
              (exists (sig : bytes) (rd2 : R),
                 Sign (NewScheme2 h c rd1) priv msg = Done (Ok sig, priv, rd2))
              \/ (exists rd2 : R,
                    Sign (NewScheme2 h c rd1) priv msg
                    = Done (Err RandomSourceFailure, priv, rd2))).
Proof.
  intros B s. subst s.
  pose proof (GenerateKeyPair_spec h c rd) as G. cbv zeta in G.
  assert (Bb : (Size h <? 16) || (128 <? Size h) = false).
  { apply orb_false_iff. split; apply Nat.ltb_ge; lia. }
  rewrite G, Bb. clear G. split.
  - intros rd1 E. now rewrite E.
  - intros priv rd1 E. rewrite E.
    pose proof (io_ReadFull_length _ _ _ _ E) as L.
    exists (digest h (pub_bytes c (Size c) priv (Size h + 2))).
    split; [reflexivity|]. split.
    { pose proof (PublicKeyFromPrivate_spec h c rd priv) as P. cbv zeta in P.
      now rewrite P, (proj2 (Nat.eqb_eq _ _) L). }
    split; [exact L|]. split; [apply digest_Size|].
    intros msg.
    pose proof (Sign_spec h c rd1 priv msg) as S. cbv zeta in S.
    rewrite S. clear S.
    change (PrivateKeySize (NewScheme2 h c rd1))
      with (PrivateKeySize (NewScheme2 h c rd)).
    rewrite (proj2 (Nat.eqb_eq _ _) L).
    destruct (io_ReadFull rd1 (Size h)) as [[r|] rd2]; [left | right; eauto].
    rewrite size_match_ge2 by lia. eauto.
Qed.

(** X4.  A signature returned by [Sign] is accepted under exactly one public
    key, the one [PublicKeyFromPrivate] derives from the signing key:
    [Verify] returns [true] for that key and [false] for every other byte
    string. *)
Theorem signature_fixes_public_key h c rd
  (key msg sig key' pub pub' : bytes) (rd' : R) :
  Sign (NewScheme2 h c rd) key msg = Done (Ok sig, key', rd') ->
  PublicKeyFromPrivate (NewScheme2 h c rd) key = Done (Ok pub) ->
  (Verify (NewScheme2 h c rd) pub' msg sig = Done true <-> pub' = pub)
  /\ (pub' <> pub -> Verify (NewScheme2 h c rd) pub' msg sig = Done false).
Proof.
  intros S P.
  apply Sign_Ok_inv in S as (L & G & _ & r & _ & Lr & ->).
  pose proof (PublicKeyFromPrivate_spec h c rd key) as Q. cbv zeta in Q.
  rewrite Q, (proj2 (Nat.eqb_eq _ _) L) in P. injection P as <-.
  change (PrivateKeySize (NewScheme2 h c rd)) with ((Size h + 2) * Size c)
    in L.
  set (pk := digest h (pub_bytes c (Size c) key (Size h + 2))).
  assert (V : Verify (NewScheme2 h c rd) pub' msg
                (r ++ sig_bytes c (Size c) key (digest_spec (New h) r msg))
              = Done (bytes_Equal pk pub')).
  { destruct (Nat.eq_dec (length pub') (Size h)) as [Lp|Lp].
    - now apply Verify_signed.
    - pose proof (Verify_spec h c rd pub' msg
        (r ++ sig_bytes c (Size c) key (digest_spec (New h) r msg))) as W.
      cbv zeta in W. rewrite W.
      change (PublicKeySize (NewScheme2 h c rd)) with (Size h).
      rewrite (proj2 (Nat.eqb_neq _ _) Lp). cbn [andb].
      destruct (bytes_Equal pk pub') eqn:Eq; [|reflexivity].
      apply bytes_Equal_eq in Eq. subst pub'. unfold pk in Lp.
      now rewrite digest_Size in Lp. }
  rewrite V. split.
  - split.
    + intros E. injection E as E. apply bytes_Equal_eq in E. congruence.
    + intros ->. now rewrite bytes_Equal_refl.
  - intros N. destruct (bytes_Equal pk pub') eqn:Eq; [|reflexivity].
    apply bytes_Equal_eq in Eq. congruence.
Qed.

End KeyPairs.

(** ** The structure of signatures and public keys *)

Lemma sig_bytes_segment (c : HashFunc) : forall (d key : bytes) (i : nat) v,
  length key = length d * Size c ->
  d !! i = Some v ->
  take (Size c) (drop (i * Size c) (sig_bytes c (Size c) key d))
  = Nat.iter (Z.to_nat (byte.unsigned v)) (digest c)
      (take (Size c) (drop (i * Size c) key)).
Proof.
  induction d as [|w d IH]; intros key i v L E; [discriminate|].
  cbn [sig_bytes length] in *.
  set (a := Nat.iter (Z.to_nat (byte.unsigned w)) (digest c)
              (take (Size c) key)).
  assert (La : length a = Size c).
  { apply iter_digest_length. rewrite length_take. lia. }
  destruct i as [|i].
  - injection E as <-. cbn [Nat.mul]. rewrite !drop_0.
    now rewrite take_app_length' by congruence.
  - cbn [lookup list_lookup] in E. cbn [Nat.mul].
    rewrite drop_app_add' by congruence.
    rewrite (IH (drop (Size c) key) i v) by (rewrite ?length_drop; lia || exact E).
    now rewrite drop_drop.
Qed.

Lemma pub_bytes_segments (c : HashFunc) : forall (n : nat) (key : bytes),
  pub_bytes c (Size c) key n
  = concat (map (fun i => Nat.iter 256 (digest c)
                            (take (Size c) (drop (i * Size c) key)))
              (seq 0 n)).
Proof.
  induction n as [|n IH]; intros key; [reflexivity|].
  cbn [pub_bytes seq map concat]. rewrite drop_0, IH. do 2 f_equal.
  rewrite <- seq_shift, map_map. apply map_ext. intros i.
  cbn [Nat.mul]. now rewrite drop_drop.
Qed.

Section Structure.

Context {R : Type} `{Reader R}.

Implicit Types (h c : HashFunc) (rd : R).

(** X5.  In a signature returned by [Sign], the first [digestSize] bytes are
    the nonce the random source delivered, and for every byte [v] at index
    [i] of the digest that [messageDigest] computes from that nonce and the
    message, segment [i] of the rest is segment [i] of the private key
    advanced [v] steps by [hashBlock]. *)
Theorem signature_segments h c rd (key msg sig key' : bytes) (rd' : R) :
  Sign (NewScheme2 h c rd) key msg = Done (Ok sig, key', rd') ->
  exists r d : bytes,
    io_ReadFull rd (Size h) = (Some r, rd')
    /\ messageDigest (New h) r msg = Done d
    /\ length d = Size h + 2
    /\ take (Size h) sig = r
    /\ forall (i : nat) (v : byte),
         d !! i = Some v ->
         take (Size c) (drop (Size h + i * Size c) sig)
         = fst (hashBlock (New c) (take (Size c) (drop (i * Size c) key))
                  (byte.unsigned v)).
Proof.
  intros S.
  apply Sign_Ok_inv in S as (L & G & _ & r & Er & Lr & ->).
  exists r, (digest_spec (New h) r msg).
  split; [exact Er|]. split; [now apply messageDigest_spec; lia|].
  split; [apply length_digest_spec|].
  split; [now rewrite take_app_length' by congruence|].
  intros i v E. rewrite drop_app_add', hashBlock_fst by congruence.
  apply sig_bytes_segment; [|exact E].
  rewrite length_digest_spec. exact L.
Qed.

(** X6.  The public key that [PublicKeyFromPrivate] returns is the digest,
    under the message hash, of the [digestSize + 2] segments of the private
    key, each advanced 256 steps by [hashBlock] under the chaining hash and
    all concatenated in order. *)
Theorem public_key_of_segments h c rd (key pub : bytes) :
  PublicKeyFromPrivate (NewScheme2 h c rd) key = Done (Ok pub) ->
  pub = digest h
          (concat
             (map (fun i =>
                     fst (hashBlock (New c)
                            (take (Size c) (drop (i * Size c) key)) 256))
                (seq 0 (Size h + 2)))).
Proof.
  intros P.
  pose proof (PublicKeyFromPrivate_spec h c rd key) as Q. cbv zeta in Q.
  rewrite Q in P. clear Q.
  destruct (length key =? _); [|discriminate].
  injection P as <-. rewrite pub_bytes_segments.
  do 2 f_equal; try (apply map_ext; intros i; now rewrite hashBlock_fst).
Qed.

End Structure.

(** ** The checksum against raised digest bytes *)

Lemma complement_sum_mono : forall d d' : bytes,
  Forall2 (fun x y => (byte.unsigned x <= byte.unsigned y)%Z) d d' ->
  (complement_sum d' <= complement_sum d)%Z
  /\ (complement_sum d' = complement_sum d -> d = d').
Proof.
  intros d d' F. induction F as [|x y l l' Hxy F' [IH1 IH2]];
    cbn [complement_sum foldr]; [split; [lia | reflexivity]|].
  fold (complement_sum l) (complement_sum l'). split; [lia|].
  intros E. assert (byte.unsigned x = byte.unsigned y) as Exy by lia.
  apply byte.unsigned_inj in Exy. subst y. f_equal. apply IH2. lia.
Qed.

(** X7.  No output of [messageDigest] over a hash of at most 128 bytes
    dominates another: if every byte of one output, checksum bytes included,
    is at most the byte at the same place of a second output of the same
    length, the two outputs are equal.  Raising any digest byte lowers the
    checksum. *)
Theorem digest_not_dominated (hh hh' : Hash) (r r' msg msg' out out' : bytes) :
  messageDigest hh r msg = Done out ->
  messageDigest hh' r' msg' = Done out' ->
  Size (alg hh) = Size (alg hh') ->
  Size (alg hh) <= 128 ->
  Forall2 (fun x y => (byte.unsigned x <= byte.unsigned y)%Z) out out' ->
  out = out'.
Proof.
  intros E E' Es Eb F.
  apply messageDigest_returns_iff in E as [_ ->].
  apply messageDigest_returns_iff in E' as [_ ->].
  unfold digest_spec, with_checksum in *.
  set (d := digest (alg hh) _) in *. set (d' := digest (alg hh') _) in *.
  assert (Ld : length d = Size (alg hh)) by apply digest_Size.
  assert (Ld' : length d' = Size (alg hh')) by apply digest_Size.
  apply Forall2_app_inv in F as [Fd Fc]; [|congruence].
  pose proof (complement_sum_bounds d) as B.
  pose proof (complement_sum_bounds d') as B'.
  rewrite !Z.mod_small in * by lia.
  destruct (complement_sum_mono d d' Fd) as [M1 M2].
  rewrite <- !be16_shift in Fc.
  inversion Fc as [|? ? ? ? Hhi Fc']; subst.
  inversion Fc' as [|? ? ? ? Hlo _]; subst.
  pose proof (be16_value (complement_sum d) ltac:(lia)) as V.
  pose proof (be16_value (complement_sum d') ltac:(lia)) as V'.
  assert (d = d') as <- by (apply M2; lia). reflexivity.
Qed.

(** ** The hash input determines the message *)

Lemma lxor_byte_range (x y : Z) :
  (0 <= x < 256)%Z -> (0 <= y < 256)%Z -> (0 <= Z.lxor x y < 256)%Z.
Proof.
  intros Hx Hy.
  assert (N : (0 <= Z.lxor x y)%Z) by (apply Z.lxor_nonneg; lia).
  split; [exact N|].
  destruct (Z.eq_dec (Z.lxor x y) 0%Z) as [->|P]; [lia|].
  change 256%Z with (2 ^ 8)%Z. apply Z.log2_lt_pow2; [lia|].
  pose proof (Z.log2_lxor x y ltac:(lia) ltac:(lia)) as L.
  assert (Lx : (Z.log2 x < 8)%Z).
  { destruct (Z.eq_dec x 0%Z) as [->|]; [cbn; lia|].
    apply Z.log2_lt_pow2; lia. }
  assert (Ly : (Z.log2 y < 8)%Z).
  { destruct (Z.eq_dec y 0%Z) as [->|]; [cbn; lia|].
    apply Z.log2_lt_pow2; lia. }
  lia.
Qed.

Lemma byte_xor_unsigned (a b : byte) :
  byte.unsigned (byte.xor a b) = Z.lxor (byte.unsigned a) (byte.unsigned b).
Proof.
  unfold byte.xor. rewrite byte.unsigned_of_Z. unfold byte.wrap.
  pose proof (byte.unsigned_range a). pose proof (byte.unsigned_range b).
  apply Z.mod_small. change (2 ^ 8)%Z with 256%Z in *.
  now apply lxor_byte_range.
Qed.

Lemma byte_xor_cancel (a b r : byte) : byte.xor a r = byte.xor b r -> a = b.
Proof.
  intros E. apply (f_equal byte.unsigned) in E.
  rewrite !byte_xor_unsigned in E.
  apply (f_equal (fun z => Z.lxor z (byte.unsigned r))) in E.
  rewrite !Z.lxor_assoc, Z.lxor_nilpotent, !Z.lxor_0_r in E.
  now apply byte.unsigned_inj.
Qed.

Lemma xor_nonce_inj : forall r a b : bytes,
  length a = length b -> length a <= length r ->
  xor_nonce r a = xor_nonce r b -> a = b.
Proof.
  unfold xor_nonce. intros r a. revert r.
  induction a as [|y a IH]; intros r b L Lr E.
  - destruct b; [reflexivity | discriminate].
  - destruct b as [|z b]; [discriminate|].
    destruct r as [|x r]; [cbn in Lr; lia|].
    cbn in L, Lr, E. injection E as E1 E2.
    apply byte_xor_cancel in E1. subst z. f_equal.
    apply (IH r b); [lia | lia | exact E2].
Qed.

(** Padding is unambiguous: what precedes the [0x80] byte that only zeros
    follow is the message. *)
Lemma pad_inj : forall (m1 m2 : bytes) (k1 k2 : nat),
  m1 ++ Byte.x80 :: replicate k1 Byte.x00
  = m2 ++ Byte.x80 :: replicate k2 Byte.x00 ->
  m1 = m2.
Proof.
  assert (Z : forall (m : bytes) (k k' : nat),
            replicate k Byte.x00 <> m ++ Byte.x80 :: replicate k' Byte.x00).
  { intros m k k' E.
    assert (I : Byte.x80 ∈ replicate k Byte.x00).
    { rewrite E. apply elem_of_app. right. left. }
    apply elem_of_replicate in I as [I _]. discriminate. }
  induction m1 as [|x m1 IH]; intros [|y m2] k1 k2 E; cbn in E.
  - reflexivity.
  - injection E as _ E. now apply Z in E.
  - injection E as _ E. symmetry in E. now apply Z in E.
  - injection E as -> E. f_equal. now apply (IH m2 k1 k2).
Qed.

Lemma padded_blocks_short (r msg : bytes) :
  length msg < length r ->
  padded_blocks r msg = xor_nonce r (pad_block (length r) msg).
Proof.
  intros L. unfold padded_blocks, last_partial.
  rewrite Nat.div_small by exact L. reflexivity.
Qed.

Lemma padded_blocks_long (r msg : bytes) :
  0 < length r -> length r <= length msg ->
  padded_blocks r msg
  = xor_nonce r (take (length r) msg)
    ++ padded_blocks r (drop (length r) msg).
Proof.
  intros Hr L. unfold padded_blocks, last_partial.
  assert (D : length msg / length r
              = S (length (drop (length r) msg) / length r)).
  { rewrite length_drop.
    replace (length msg) with (length msg - length r + 1 * length r) at 1
      by lia.
    rewrite Nat.div_add by lia. lia. }
  rewrite D. cbn [full_blocks map concat].
  rewrite <- app_assoc, drop_drop. do 3 f_equal; lia.
Qed.

Lemma length_padded_blocks_pos (r msg : bytes) :
  0 < length r -> 0 < length (padded_blocks r msg).
Proof.
  intros Hr. unfold padded_blocks.
  rewrite length_app, length_xor_nonce; [lia|].
  apply length_pad_block. now apply length_last_partial.
Qed.

(** A message shorter than the nonce and one at least as long never get the
    same blocks; two short ones only when they are equal. *)
Lemma padded_blocks_short_long (r m1 m2 : bytes) :
  0 < length r -> length m1 < length r -> length r <= length m2 ->
  padded_blocks r m1 <> padded_blocks r m2.
Proof.
  intros Hr L1 L2 E.
  rewrite (padded_blocks_short r m1), (padded_blocks_long r m2) in E by lia.
  apply (f_equal length) in E.
  pose proof (length_padded_blocks_pos r (drop (length r) m2) Hr).
  rewrite length_app, !length_xor_nonce in E;
    [lia | rewrite length_take; lia | apply length_pad_block; lia].
Qed.

Lemma padded_blocks_short_short (r m1 m2 : bytes) :
  length m1 < length r -> length m2 < length r ->
  padded_blocks r m1 = padded_blocks r m2 -> m1 = m2.
Proof.
  intros L1 L2 E. rewrite !padded_blocks_short in E by lia.
  apply xor_nonce_inj in E.
  - unfold pad_block in E. exact (pad_inj m1 m2 _ _ E).
  - rewrite !length_pad_block by lia. reflexivity.
  - rewrite length_pad_block by lia. lia.
Qed.

Lemma padded_blocks_inj (r : bytes) :
  0 < length r ->
  forall (k : nat) (m1 m2 : bytes),
  length m1 <= k ->
  padded_blocks r m1 = padded_blocks r m2 -> m1 = m2.
Proof.
  intros Hr. induction k as [|k IH]; intros m1 m2 Lk E;
    destruct (Nat.le_gt_cases (length r) (length m1)) as [L1|L1];
    destruct (Nat.le_gt_cases (length r) (length m2)) as [L2|L2];
    try lia;
    try (now apply (padded_blocks_short_short r m1 m2));
    try (now apply padded_blocks_short_long in E);
    try (symmetry in E; now apply padded_blocks_short_long in E).
  rewrite (padded_blocks_long r m1), (padded_blocks_long r m2) in E by lia.
  apply app_inj_1 in E as [E1 E2].
  - apply xor_nonce_inj in E1;
      [| rewrite !length_take; lia | rewrite length_take; lia].
    apply IH in E2; [|rewrite length_drop; lia].
    rewrite <- (take_drop (length r) m1), <- (take_drop (length r) m2).
    congruence.
  - rewrite !length_xor_nonce; rewrite ?length_take; lia.
Qed.

Lemma digest_feed_inj (r msg1 msg2 : bytes) :
  0 < length r ->
  digest_feed r msg1 = digest_feed r msg2 ->
  msg1 = msg2.
Proof.
  intros Hr E. unfold digest_feed in E.
  apply app_inv_head in E. rewrite !app_assoc in E.
  apply app_inv_tail in E.
  now apply (padded_blocks_inj r Hr (length msg1)) in E.
Qed.

(** X8.  For a nonce of at least 2 bytes, [messageDigest] returns the
    digest, with its checksum, of a byte string that determines the message:
    two messages for which that string is the same, under the same nonce,
    are the same message. *)
Theorem digest_feed_injective (hh : Hash) (r msg1 msg2 : bytes) :
  2 <= length r ->
  messageDigest hh r msg1
  = Done (with_checksum (digest (alg hh) (written hh ++ digest_feed r msg1)))
  /\ (digest_feed r msg1 = digest_feed r msg2 -> msg1 = msg2).
Proof.
  intros G. split; [now apply messageDigest_spec|].
  apply digest_feed_inj. lia.
Qed.

(** X9.  Under one nonce of at least 2 bytes, when two different messages
    get the same output from [messageDigest], the two byte strings that
    [messageDigest] fed into the hash for them are different and have the
    same digest: the collision is a collision of the hash function on
    exactly those two inputs. *)
Theorem digest_collision_is_hash_collision (hh : Hash) (r msg1 msg2 : bytes) :
  2 <= length r ->
  msg1 <> msg2 ->
  messageDigest hh r msg1 = messageDigest hh r msg2 ->
  let x1 := written hh ++ digest_feed r msg1 in
  let x2 := written hh ++ digest_feed r msg2 in
  messageDigest hh r msg1 = Done (with_checksum (digest (alg hh) x1))
  /\ messageDigest hh r msg2 = Done (with_checksum (digest (alg hh) x2))
  /\ x1 <> x2
  /\ digest (alg hh) x1 = digest (alg hh) x2.
Proof.
  intros G N E x1 x2.
  pose proof (messageDigest_spec hh r msg1 G) as E1.
  pose proof (messageDigest_spec hh r msg2 G) as E2.
  split; [exact E1|]. split; [exact E2|]. split.
  - intros X. apply app_inv_head in X.
    apply digest_feed_inj in X; [contradiction | lia].
  - rewrite E1, E2 in E. injection E as E.
    unfold digest_spec, with_checksum in E.
    apply app_inj_1 in E as [E _]; [exact E|].
    now rewrite !digest_Size.
Qed.

(** ** The superseded API against the current one *)

Section LegacyFacts.

Context {R : Type} `{Reader R}.

Implicit Types (h : HashFunc) (rd : R).

Lemma Legacy_sign_loop_eq (ls : Legacy.Scheme R) (s : Scheme R) :
  Legacy.blockSize ls = blockSize s ->
  forall (d sig b : bytes) (bh : Hash),
  Legacy.sign_loop ls bh sig b d = sign_loop s bh sig b d.
Proof.
  intros E. induction d as [|v d IH]; intros sig b bh; [reflexivity|].
  cbn [Legacy.sign_loop sign_loop]. rewrite E.
  destruct (slice_to b (blockSize s)) as [seg| |];
    cbv beta iota delta [mbind exec_bind]; [|reflexivity|reflexivity].
  destruct (hashBlock bh seg (byte.unsigned v)) as [out bh'].
  destruct (slice_from b (blockSize s)) as [b'| |];
    cbv beta iota delta [mbind exec_bind]; [|reflexivity|reflexivity].
  apply IH.
Qed.

Lemma Legacy_verify_loop_eq (ls : Legacy.Scheme R) (s : Scheme R) :
  Legacy.blockSize ls = blockSize s ->
  forall (d sig : bytes) (kh bh : Hash),
  Legacy.verify_loop ls kh bh sig d = verify_loop s kh bh sig d.
Proof.
  intros E. induction d as [|v d IH]; intros sig kh bh; [reflexivity|].
  cbn [Legacy.verify_loop verify_loop]. rewrite E.
  destruct (slice_to sig (blockSize s)) as [seg| |];
    cbv beta iota delta [mbind exec_bind]; [|reflexivity|reflexivity].
  destruct (hashBlock bh seg (256 - byte.unsigned v)) as [out bh'].
  destruct (slice_from sig (blockSize s)) as [sig'| |];
    cbv beta iota delta [mbind exec_bind]; [|reflexivity|reflexivity].
  apply IH.
Qed.

Lemma Legacy_pubkey_loop_eq (ls : Legacy.Scheme R) (s : Scheme R) :
  Legacy.blockSize ls = blockSize s ->
  forall (fuel : nat) (kh bh : Hash) (key : bytes) (i : nat),
  Legacy.pubkey_loop fuel ls kh bh key i = pubkey_loop fuel s kh bh key i.
Proof.
  intros E. induction fuel as [|fuel IH]; intros kh bh key i;
    cbn [Legacy.pubkey_loop pubkey_loop]; [reflexivity|]. rewrite E.
  destruct (i <? length key); [|reflexivity].
  destruct (slice key i (i + blockSize s)) as [seg| |];
    cbv beta iota delta [mbind exec_bind]; [|reflexivity|reflexivity].
  destruct (hashBlock bh seg 256) as [out bh']. apply IH.
Qed.

Lemma Legacy_Verify_eq h rd (pub msg sig : bytes) :
  Legacy.Verify (Legacy.NewScheme h rd) pub msg sig
  = Verify (NewScheme h rd) pub msg sig.
Proof.
  unfold Legacy.Verify, Verify, Legacy.PublicKeySize, Legacy.SignatureSize,
    PublicKeySize, SignatureSize, NewScheme.
  cbn [Legacy.blockSize Legacy.hashFunc Legacy.NewScheme pubkeySize digestSize
       blockSize hashFunc chainFunc NewScheme2].
  destruct (_ || _); [reflexivity|].
  destruct (slice_to sig (Size h)) as [r| |];
    cbv beta iota delta [mbind exec_bind]; [|reflexivity|reflexivity].
  destruct (messageDigest (New h) r msg) as [d| |];
    cbv beta iota delta [mbind exec_bind]; [|reflexivity|reflexivity].
  destruct (slice_from sig (Size h)) as [sg| |];
    cbv beta iota delta [mbind exec_bind]; [|reflexivity|reflexivity].
  now rewrite (Legacy_verify_loop_eq (Legacy.NewScheme h rd)
                 (NewScheme2 h h rd) eq_refl).
Qed.

Lemma Legacy_BytesToPrivateKey_spec h rd (key : bytes) (n : nat) :
  0 < Size h -> length key = n * Size h ->
  Legacy.BytesToPrivateKey (Legacy.NewScheme h rd) key
  = Done (Ok {| Legacy.PublicKey := digest h (pub_bytes h (Size h) key n);
                Legacy.B := key |}).
Proof.
  intros Hs L. unfold Legacy.BytesToPrivateKey.
  cbn [Legacy.hashFunc Legacy.NewScheme].
  rewrite (Legacy_pubkey_loop_eq (Legacy.NewScheme h rd) (NewScheme2 h h rd)
             eq_refl).
  destruct (pubkey_loop_spec (NewScheme2 h h rd) Hs n (S (length key))
              (New h) (New h) key 0) as (bh' & P & _).
  - cbn [blockSize NewScheme2]. lia.
  - nia.
  - rewrite P, bind_Done. reflexivity.
Qed.

Lemma Legacy_Sign_spec h rd (pub key r msg : bytes) (rd' : R) :
  2 <= Size h ->
  length key = (Size h + 2) * Size h ->
  io_ReadFull rd (Size h) = (Some r, rd') ->
  Legacy.Sign (Legacy.NewScheme h rd)
    {| Legacy.PublicKey := pub; Legacy.B := key |} msg
  = Done (r ++ sig_bytes h (Size h) key (digest_spec (New h) r msg),
          {| Legacy.PublicKey := pub; Legacy.B := [] |},
          replicate (length key) Byte.x00, rd').
Proof.
  intros G L Er. unfold Legacy.Sign.
  cbn [Legacy.rand Legacy.blockSize Legacy.hashFunc Legacy.NewScheme
       Legacy.B Legacy.PublicKey].
  rewrite Er. apply io_ReadFull_length in Er.
  rewrite messageDigest_spec, bind_Done by lia.
  rewrite (Legacy_sign_loop_eq (Legacy.NewScheme h rd) (NewScheme2 h h rd)
             eq_refl).
  rewrite sign_loop_spec, bind_Done
    by (rewrite length_digest_spec; exact L).
  rewrite zero_range_spec, bind_Done by reflexivity.
  reflexivity.
Qed.

(** X10.  The two APIs interoperate over one hash function.  [Verify] of the
    superseded API returns what [Verify] of the current one returns, on every
    input; a signature that the current [Sign] returns is the signature the
    superseded [Sign] returns for the same key bytes, message and random
    source; and the public key the current [PublicKeyFromPrivate] derives is
    the one [BytesToPrivateKey] stores in the key object. *)
Theorem legacy_interoperates h rd (key msg : bytes) :
  (forall pub sig : bytes,
     Legacy.Verify (Legacy.NewScheme h rd) pub msg sig
     = Verify (NewScheme h rd) pub msg sig)
  /\ (forall (pub0 sig key' : bytes) (rd' : R),
        Sign (NewScheme h rd) key msg = Done (Ok sig, key', rd') ->
        Legacy.Sign (Legacy.NewScheme h rd)
          {| Legacy.PublicKey := pub0; Legacy.B := key |} msg
        = Done (sig, {| Legacy.PublicKey := pub0; Legacy.B := [] |},
                replicate (length key) Byte.x00, rd'))
  /\ (forall pub : bytes,
        PublicKeyFromPrivate (NewScheme h rd) key = Done (Ok pub) ->
        Legacy.BytesToPrivateKey (Legacy.NewScheme h rd) key
        = Done (Ok {| Legacy.PublicKey := pub; Legacy.B := key |})).
Proof.
  split; [intros; apply Legacy_Verify_eq|]. split.
  - intros pub0 sig key' rd' S. unfold NewScheme in S.
    apply Sign_Ok_inv in S as (L & G & _ & r & Er & _ & ->).
    now apply Legacy_Sign_spec.
  - intros pub P. unfold NewScheme in P.
    pose proof (PublicKeyFromPrivate_spec h h rd key) as Q. cbv zeta in Q.
    rewrite Q in P. clear Q.
    destruct (length key =? _) eqn:L; [|discriminate].
    apply Nat.eqb_eq in L. injection P as <-.
    destruct (Size h) as [|b] eqn:Eb.
    + (* no output, no key bytes: neither loop runs *)
      assert (key = []) as ->.
      { apply length_zero_iff_nil. rewrite L. unfold PrivateKeySize.
        cbn [digestSize blockSize NewScheme2]. lia. }
      unfold Legacy.BytesToPrivateKey. cbn.
      do 3 f_equal.
      pose proof (PublicKeyFromPrivate_spec h h rd []) as Q. cbv zeta in Q.
      unfold PublicKeyFromPrivate in Q. cbn in Q. rewrite Eb in Q. cbn in Q.
      now injection Q.
    + rewrite <- Eb.
      apply Legacy_BytesToPrivateKey_spec; [lia | exact L].
Qed.

Lemma Legacy_GenerateKey_spec h rd :
  Legacy.GenerateKey (Legacy.NewScheme h rd)
  = if (Size h <? 16) || (128 <? Size h) then
      Done (Err InvalidParameter, rd)
    else
      match io_ReadFull rd ((Size h + 2) * Size h) with
      | (None, rd') => Done (Err RandomSourceFailure, rd')
      | (Some key, rd') =>
          Done (Ok {| Legacy.PublicKey :=
                        digest h (pub_bytes h (Size h) key (Size h + 2));
                      Legacy.B := key |}, rd')
      end.
Proof.
  unfold Legacy.GenerateKey.
  cbn [Legacy.rand Legacy.blockSize Legacy.NewScheme].
  destruct ((Size h <? 16) || (128 <? Size h)) eqn:B; [reflexivity|].
  apply orb_false_iff in B as [B _]. apply Nat.ltb_ge in B.
  destruct (io_ReadFull rd _) as [[key|] rd'] eqn:E; [|reflexivity].
  apply io_ReadFull_length in E.
  now rewrite (Legacy_BytesToPrivateKey_spec h rd key (Size h + 2))
    by (lia || exact E).
Qed.

(** X11.  In the superseded API a generated key signs and verifies: when
    [GenerateKey] returns a key object and [Sign], given its nonce, returns,
    the key object keeps its public key and [Verify] returns [true] for that
    public key, the message and the signature. *)
Theorem legacy_keygen_sign_verify h rd (k k' : Legacy.PrivateKey)
  (r msg sig arr : bytes) (rd1 rd2 rd3 : R) :
  Legacy.GenerateKey (Legacy.NewScheme h rd) = Done (Ok k, rd1) ->
  io_ReadFull rd1 (Size h) = (Some r, rd2) ->
  Legacy.Sign (Legacy.NewScheme h rd1) k msg = Done (sig, k', arr, rd3) ->
  Legacy.PublicKey k' = Legacy.PublicKey k
  /\ Legacy.B k' = []
  /\ Legacy.Verify (Legacy.NewScheme h rd3) (Legacy.PublicKey k) msg sig
     = Done true.
Proof.
  intros G Er S. rewrite Legacy_GenerateKey_spec in G.
  destruct ((Size h <? 16) || (128 <? Size h)) eqn:B; [discriminate|].
  apply orb_false_iff in B as [B _]. apply Nat.ltb_ge in B.
  destruct (io_ReadFull rd _) as [[key|] rd'] eqn:Ek; [|discriminate].
  apply io_ReadFull_length in Ek. injection G as <- <-.
  rewrite (Legacy_Sign_spec h rd' _ key r msg rd2) in S by (lia || assumption).
  injection S as <- <- _ <-. cbn [Legacy.PublicKey Legacy.B].
  split; [reflexivity|]. split; [reflexivity|].
  rewrite Legacy_Verify_eq. unfold NewScheme.
  rewrite Verify_signed.
  - now rewrite bytes_Equal_refl.
  - lia.
  - exact Ek.
  - now apply io_ReadFull_length in Er.
  - apply digest_Size.
Qed.

(** X12.  [BytesToPrivateKey] does not check the key length against the
    scheme: for every byte string whose length is a multiple of the hash
    output size, of whatever number of blocks, it returns a key object that
    holds those bytes and a public key of the hash output size, where
    [PublicKeyFromPrivate] returns [InvalidKeySize] unless the number of
    blocks is the hash output size plus 2. *)
Theorem BytesToPrivateKey_unchecked h rd (key : bytes) (n : nat) :
  0 < Size h -> length key = n * Size h ->
  (exists pub : bytes,
     Legacy.BytesToPrivateKey (Legacy.NewScheme h rd) key
     = Done (Ok {| Legacy.PublicKey := pub; Legacy.B := key |})
     /\ length pub = Size h)
  /\ (n <> Size h + 2 ->
      PublicKeyFromPrivate (NewScheme h rd) key = Done (Err InvalidKeySize)).
Proof.
  intros Hs L. split.
  - eexists. split; [exact (Legacy_BytesToPrivateKey_spec h rd key n Hs L)|].
    apply digest_Size.
  - intros N. unfold NewScheme.
    pose proof (PublicKeyFromPrivate_spec h h rd key) as Q. cbv zeta in Q.
    rewrite Q. clear Q.
    rewrite (proj2 (Nat.eqb_neq _ _)); [reflexivity|].
    rewrite L. unfold PrivateKeySize. cbn [digestSize blockSize NewScheme2].
    nia.
Qed.

End LegacyFacts.

(** ** Outcomes of the superseded key generation and signing *)

Section LegacyOutcomes.

Context {R : Type} `{Reader R}.

Implicit Types (h : HashFunc) (rd : R).

(** X13.  [GenerateKey] of the superseded API always returns.  It returns
    the [InvalidParameter] error exactly when the hash output size is below
    16 or above 128 bytes, without reading the random source; in range it
    returns [RandomSourceFailure] when the random source fails to deliver
    [(n + 2) * n] bytes, and otherwise a key object that holds exactly the
    bytes read, with a public key of [n] bytes. *)
Theorem legacy_keygen_outcomes h rd :
  let s := Legacy.NewScheme h rd in
  ((exists rd' : R, Legacy.GenerateKey s = Done (Err InvalidParameter, rd'))
   <-> (Size h < 16 \/ 128 < Size h))
  /\ (Size h < 16 \/ 128 < Size h ->
      Legacy.GenerateKey s = Done (Err InvalidParameter, rd))
  /\ (16 <= Size h <= 128 ->
      forall rd' : R,
      io_ReadFull rd ((Size h + 2) * Size h) = (None, rd') ->
      Legacy.GenerateKey s = Done (Err RandomSourceFailure, rd'))
  /\ (16 <= Size h <= 128 ->
      forall (key : bytes) (rd' : R),
      io_ReadFull rd ((Size h + 2) * Size h) = (Some key, rd') ->
      exists pub : bytes,
        Legacy.GenerateKey s
        = Done (Ok {| Legacy.PublicKey := pub; Legacy.B := key |}, rd')
        /\ length pub = Legacy.PublicKeySize s
        /\ length key = (Size h + 2) * Size h).
Proof.
  intros s. subst s. rewrite Legacy_GenerateKey_spec.
  assert (B : (Size h <? 16) || (128 <? Size h) = true
              <-> (Size h < 16 \/ 128 < Size h)).
  { rewrite orb_true_iff, !Nat.ltb_lt. reflexivity. }
  destruct ((Size h <? 16) || (128 <? Size h)) eqn:E.
  - assert (O : Size h < 16 \/ 128 < Size h) by now apply B.
    split; [split; eauto|]. split; [reflexivity|]. split; intros; lia.
  - assert (O : ~ (Size h < 16 \/ 128 < Size h)).
    { intros O. apply B in O. discriminate. }
    split; [|split; [|split]].
    + split; [|intros; contradiction].
      intros [rd' G].
      destruct (io_ReadFull rd _) as [[key|] rd1]; discriminate.
    + intros; contradiction.
    + intros _ rd' Er. now rewrite Er.
    + intros _ key rd' Er. rewrite Er. eexists. split; [reflexivity|].
      split; [apply digest_Size | now apply io_ReadFull_length in Er].
Qed.

(** X14.  [Sign] of the superseded API, on a key object of
    [(n + 2) * n] private bytes under a hash of [n >= 2] bytes: when the
    random source fails it returns nil and leaves the key object and its
    bytes as they were; when the random source delivers it returns a
    signature of [SignatureSize()] bytes that starts with the nonce. *)
Theorem legacy_sign_outcomes h rd (pub key msg : bytes) :
  2 <= Size h ->
  length key = (Size h + 2) * Size h ->
  let s := Legacy.NewScheme h rd in
  let k := {| Legacy.PublicKey := pub; Legacy.B := key |} in
  (forall rd' : R,
     io_ReadFull rd (Size h) = (None, rd') ->
     Legacy.Sign s k msg = Done ([], k, key, rd'))
  /\ (forall (r : bytes) (rd' : R),
        io_ReadFull rd (Size h) = (Some r, rd') ->
        exists sig : bytes,
          Legacy.Sign s k msg
          = Done (sig, {| Legacy.PublicKey := pub; Legacy.B := [] |},
                  replicate (length key) Byte.x00, rd')
          /\ length sig = Legacy.SignatureSize s
          /\ take (Size h) sig = r).
Proof.
  intros G L s k. subst s k. split.
  - intros rd' Er. unfold Legacy.Sign.
    cbn [Legacy.rand Legacy.blockSize Legacy.NewScheme Legacy.B].
    now rewrite Er.
  - intros r rd' Er. eexists.
    split; [exact (Legacy_Sign_spec h rd pub key r msg rd' G L Er)|].
    apply io_ReadFull_length in Er. split.
    + rewrite length_app, length_sig_bytes
        by (rewrite length_digest_spec; exact L).
      rewrite length_digest_spec. unfold Legacy.SignatureSize.
      cbn [Legacy.blockSize Legacy.NewScheme New alg]. lia.
    + now rewrite take_app_length' by congruence.
Qed.

End LegacyOutcomes.

(** ** What Verify accepts *)

Lemma ver_bytes_imap (c : HashFunc) (bs : nat) : forall d sg : bytes,
  ver_bytes c bs sg d
  = concat (imap (fun i v =>
                    Nat.iter (Z.to_nat (256 - byte.unsigned v)) (digest c)
                      (take bs (drop (i * bs) sg))) d).
Proof.
  induction d as [|v d IH]; intros sg; [reflexivity|].
  cbn [ver_bytes]. rewrite imap_cons. cbn [concat Nat.mul].
  rewrite drop_0, IH. do 2 f_equal.
  apply imap_ext. intros i x _. cbn. now rewrite drop_drop.
Qed.

Section Accepts.

Context {R : Type} `{Reader R}.

Implicit Types (h c : HashFunc) (rd : R).

(** X15.  Under a hash of at least 2 bytes, [Verify] returns [true] exactly
    when the public key and the signature have the sizes of the scheme and
    the public key is the digest of the signature segments, segment [i]
    advanced [256 - v] steps by [hashBlock] for the byte [v] at index [i] of
    the digest that [messageDigest] computes from the leading nonce and the
    message. *)
Theorem verify_accepts_iff h c rd (pub msg sig : bytes) :
  2 <= Size h ->
  Verify (NewScheme2 h c rd) pub msg sig = Done true
  <-> length pub = Size h
      /\ length sig = (Size h + 2) * Size c + Size h
      /\ exists d : bytes,
           messageDigest (New h) (take (Size h) sig) msg = Done d
           /\ digest h
                (concat
                   (imap (fun i v =>
                            fst (hashBlock (New c)
                                   (take (Size c)
                                      (drop (Size h + i * Size c) sig))
                                   (256 - byte.unsigned v))) d))
              = pub.
Proof.
  intros G.
  pose proof (Verify_spec h c rd pub msg sig) as V. cbv zeta in V.
  rewrite V. clear V. unfold PublicKeySize, SignatureSize.
  cbn [pubkeySize digestSize blockSize NewScheme2].
  assert (I : forall d : bytes,
            ver_bytes c (Size c) (drop (Size h) sig) d
            = concat
                (imap (fun i v =>
                         fst (hashBlock (New c)
                                (take (Size c)
                                   (drop (Size h + i * Size c) sig))
                                (256 - byte.unsigned v))) d)).
  { intros d. rewrite ver_bytes_imap. f_equal. apply imap_ext.
    intros i v _. now rewrite hashBlock_fst, drop_drop. }
  destruct (length pub =? Size h) eqn:Lp;
    [apply Nat.eqb_eq in Lp | apply Nat.eqb_neq in Lp].
  - destruct (length sig =? _) eqn:Ls;
      [apply Nat.eqb_eq in Ls | apply Nat.eqb_neq in Ls]; cbn [andb].
    + rewrite size_match_ge2 by exact G. split.
      * intros E. injection E as E. apply bytes_Equal_eq in E.
        split; [exact Lp|]. split; [exact Ls|].
        exists (digest_spec (New h) (take (Size h) sig) msg).
        split; [apply messageDigest_spec; rewrite length_take; lia|].
        now rewrite <- I.
      * intros (_ & _ & d & Ed & Ep).
        apply messageDigest_returns_iff in Ed as [_ ->].
        rewrite <- I in Ep. rewrite Ep. now rewrite bytes_Equal_refl.
    + split; [discriminate|]. intros (_ & L & _). contradiction.
  - cbn [andb]. split; [discriminate|]. intros (L & _). contradiction.
Qed.

End Accepts.

(** ** The further properties at the sample inputs *)

Lemma keygen_sign_verify_sample :
  GenerateKeyPair sample_scheme = Done (Ok (zero_key, zero_pub), zeroReader)
  /\ Sign sample_scheme zero_key hello
     = Done (Ok zero_sig, zero_key, zeroReader)
  /\ Verify sample_scheme zero_pub hello zero_sig = Done true.
Proof.
  assert (G : GenerateKeyPair sample_scheme
              = Done (Ok (zero_key, zero_pub), zeroReader))
    by (vm_compute; reflexivity).
  assert (S : Sign sample_scheme zero_key hello
              = Done (Ok zero_sig, zero_key, zeroReader))
    by (vm_compute; reflexivity).
  split; [exact G|]. split; [exact S|].
  exact (keygen_sign_verify (toyHash 16) (toyHash 4) zeroReader zero_key
           zero_pub hello zero_sig zero_key zeroReader zeroReader G S).
Defined.

Lemma keygen_outcomes_sample :
  16 <= Size (toyHash 16) <= 128
  /\ GenerateKeyPair (NewScheme2 (toyHash 16) (toyHash 4) (take 71 sample_key))
     = Done (Err RandomSourceFailure, [])
  /\ exists pub : bytes,
       GenerateKeyPair (NewScheme2 (toyHash 16) (toyHash 4) sample_key)
       = Done (Ok (sample_key, pub), [])
       /\ PublicKeyFromPrivate
            (NewScheme2 (toyHash 16) (toyHash 4) sample_key) sample_key
          = Done (Ok pub).
Proof.
  assert (B : 16 <= Size (toyHash 16) <= 128) by (vm_compute; lia).
  split; [exact B|]. split.
  - apply (proj1 (@keygen_outcomes tape tape_Reader (toyHash 16) (toyHash 4)
                    (take 71 sample_key) B) []).
    vm_compute. reflexivity.
  - assert (E : @io_ReadFull tape tape_Reader sample_key
                  (PrivateKeySize
                     (NewScheme2 (toyHash 16) (toyHash 4) sample_key))
                = (Some sample_key, [])) by (vm_compute; reflexivity).
    destruct (proj2 (@keygen_outcomes tape tape_Reader (toyHash 16)
                       (toyHash 4) sample_key B) sample_key [] E)
      as (pub & G & P & _).
    exists pub. split; [exact G | exact P].
Defined.

Lemma signature_fixes_public_key_sample :
  Sign sample_scheme sample_key hello
  = Done (Ok sample_sig, sample_key, zeroReader)
  /\ PublicKeyFromPrivate sample_scheme sample_key = Done (Ok sample_pub)
  /\ Verify sample_scheme (replicate 16 Byte.xff) hello sample_sig
     = Done false.
Proof.
  assert (S : Sign sample_scheme sample_key hello
              = Done (Ok sample_sig, sample_key, zeroReader))
    by (vm_compute; reflexivity).
  assert (P : PublicKeyFromPrivate sample_scheme sample_key
              = Done (Ok sample_pub))
    by (vm_compute; reflexivity).
  split; [exact S|]. split; [exact P|].
  apply (proj2 (signature_fixes_public_key (toyHash 16) (toyHash 4) zeroReader
                  sample_key hello sample_sig sample_key sample_pub
                  (replicate 16 Byte.xff) zeroReader S P)).
  intros E. apply bytes_Equal_eq in E. vm_compute in E. discriminate E.
Defined.

Lemma signature_segments_sample :
  Sign sample_scheme sample_key hello
  = Done (Ok sample_sig, sample_key, zeroReader)
  /\ exists r d : bytes,
       io_ReadFull zeroReader 16 = (Some r, zeroReader)
       /\ messageDigest (New (toyHash 16)) r hello = Done d
       /\ length d = 18
       /\ take 16 sample_sig = r
       /\ forall (i : nat) (v : byte),
            d !! i = Some v ->
            take 4 (drop (16 + i * 4) sample_sig)
            = fst (hashBlock (New (toyHash 4)) (take 4 (drop (i * 4) sample_key))
                     (byte.unsigned v)).
Proof.
  assert (S : Sign sample_scheme sample_key hello
              = Done (Ok sample_sig, sample_key, zeroReader))
    by (vm_compute; reflexivity).
  split; [exact S|].
  exact (signature_segments (toyHash 16) (toyHash 4) zeroReader sample_key
           hello sample_sig sample_key zeroReader S).
Defined.

Lemma public_key_of_segments_sample :
  PublicKeyFromPrivate sample_scheme sample_key = Done (Ok sample_pub)
  /\ sample_pub
     = digest (toyHash 16)
         (concat
            (map (fun i =>
                    fst (hashBlock (New (toyHash 4))
                           (take 4 (drop (i * 4) sample_key)) 256))
               (seq 0 18))).
Proof.
  assert (P : PublicKeyFromPrivate sample_scheme sample_key
              = Done (Ok sample_pub))
    by (vm_compute; reflexivity).
  split; [exact P|].
  exact (public_key_of_segments (toyHash 16) (toyHash 4) zeroReader
           sample_key sample_pub P).
Defined.

Lemma digest_not_dominated_sample :
  messageDigest (New (toyHash 16)) (replicate 16 Byte.x2a) hello
  = Done (digest_spec (New (toyHash 16)) (replicate 16 Byte.x2a) hello)
  /\ Size (toyHash 16) <= 128
  /\ digest_spec (New (toyHash 16)) (replicate 16 Byte.x2a) hello
     = digest_spec (New (toyHash 16)) (replicate 16 Byte.x2a) hello.
Proof.
  assert (E : messageDigest (New (toyHash 16)) (replicate 16 Byte.x2a) hello
              = Done (digest_spec (New (toyHash 16)) (replicate 16 Byte.x2a)
                        hello))
    by (vm_compute; reflexivity).
  assert (B : Size (toyHash 16) <= 128) by (vm_compute; lia).
  split; [exact E|]. split; [exact B|].
  apply (digest_not_dominated (New (toyHash 16)) (New (toyHash 16))
           (replicate 16 Byte.x2a) (replicate 16 Byte.x2a) hello hello
           _ _ E E eq_refl B).
  apply Forall_Forall2_diag, Forall_forall. intros x _. lia.
Defined.

Lemma digest_feed_injective_sample :
  2 <= length (replicate 16 Byte.x2a)
  /\ (digest_feed (replicate 16 Byte.x2a) hello
      = digest_feed (replicate 16 Byte.x2a) hello_again ->
      hello = hello_again).
Proof.
  assert (G : 2 <= length (replicate 16 Byte.x2a)) by (vm_compute; lia).
  split; [exact G|].
  exact (proj2 (digest_feed_injective (New (toyHash 16))
                  (replicate 16 Byte.x2a) hello hello_again G)).
Defined.

Lemma digest_collision_sample :
  2 <= length (replicate 16 Byte.x00)
  /\ [Byte.x00; Byte.x1f] <> [Byte.x01; Byte.x00]
  /\ messageDigest (New (toyHash 16)) (replicate 16 Byte.x00)
       [Byte.x00; Byte.x1f]
     = messageDigest (New (toyHash 16)) (replicate 16 Byte.x00)
         [Byte.x01; Byte.x00]
  /\ digest_feed (replicate 16 Byte.x00) [Byte.x00; Byte.x1f]
     <> digest_feed (replicate 16 Byte.x00) [Byte.x01; Byte.x00]
  /\ toy_digest 16 (digest_feed (replicate 16 Byte.x00) [Byte.x00; Byte.x1f])
     = toy_digest 16
         (digest_feed (replicate 16 Byte.x00) [Byte.x01; Byte.x00]).
Proof.
  assert (G : 2 <= length (replicate 16 Byte.x00)) by (vm_compute; lia).
  assert (N : [Byte.x00; Byte.x1f] <> [Byte.x01; Byte.x00]) by discriminate.
  assert (E : messageDigest (New (toyHash 16)) (replicate 16 Byte.x00)
                [Byte.x00; Byte.x1f]
              = messageDigest (New (toyHash 16)) (replicate 16 Byte.x00)
                  [Byte.x01; Byte.x00])
    by (vm_compute; reflexivity).
  split; [exact G|]. split; [exact N|]. split; [exact E|].
  exact (proj2 (proj2 (digest_collision_is_hash_collision (New (toyHash 16))
                         (replicate 16 Byte.x00) [Byte.x00; Byte.x1f]
                         [Byte.x01; Byte.x00] G N E))).
Defined.

Lemma legacy_keygen_sign_verify_sample :
  Legacy.GenerateKey legacy16 = Done (Ok legacy16_key, zeroReader)
  /\ Legacy.Sign legacy16 legacy16_key hello
     = Done (legacy16_sig,
             {| Legacy.PublicKey := Legacy.PublicKey legacy16_key;
                Legacy.B := [] |},
             replicate 288 Byte.x00, zeroReader)
  /\ Legacy.Verify legacy16 (Legacy.PublicKey legacy16_key) hello legacy16_sig
     = Done true.
Proof.
  assert (G : Legacy.GenerateKey legacy16 = Done (Ok legacy16_key, zeroReader))
    by (vm_compute; reflexivity).
  assert (S : Legacy.Sign legacy16 legacy16_key hello
              = Done (legacy16_sig,
                      {| Legacy.PublicKey := Legacy.PublicKey legacy16_key;
                         Legacy.B := [] |},
                      replicate 288 Byte.x00, zeroReader))
    by (vm_compute; reflexivity).
  split; [exact G|]. split; [exact S|].
  exact (proj2 (proj2 (legacy_keygen_sign_verify (mirrorHash 16) zeroReader
                         legacy16_key _ (replicate 16 Byte.x00) hello
                         legacy16_sig _ zeroReader zeroReader zeroReader
                         G eq_refl S))).
Defined.

Lemma BytesToPrivateKey_unchecked_sample :
  length (take 8 sample_key) = 2 * Size (toyHash 4)
  /\ (exists pub : bytes,
        Legacy.BytesToPrivateKey legacy_scheme (take 8 sample_key)
        = Done (Ok {| Legacy.PublicKey := pub;
                      Legacy.B := take 8 sample_key |})
        /\ length pub = Size (toyHash 4))
  /\ PublicKeyFromPrivate (NewScheme (toyHash 4) zeroReader)
       (take 8 sample_key)
     = Done (Err InvalidKeySize).
Proof.
  assert (L : length (take 8 sample_key) = 2 * Size (toyHash 4))
    by (vm_compute; reflexivity).
  split; [exact L|].
  destruct (BytesToPrivateKey_unchecked (toyHash 4) zeroReader
              (take 8 sample_key) 2 ltac:(vm_compute; lia) L) as [B P].
  split; [exact B|]. apply P. vm_compute. lia.
Defined.

Lemma legacy_interoperates_sample :
  Legacy.Sign legacy_scheme legacy_key hello
  = Done (signature_of
            (Sign (NewScheme (toyHash 4) zeroReader) (take 24 sample_key)
               hello),
          {| Legacy.PublicKey := []; Legacy.B := [] |},
          replicate (length (take 24 sample_key)) Byte.x00, zeroReader).
Proof.
  destruct (legacy_interoperates (toyHash 4) zeroReader (take 24 sample_key)
              hello) as (_ & S & _).
  apply (S [] _ (take 24 sample_key) zeroReader).
  vm_compute. reflexivity.
Defined.

Lemma legacy_sign_outcomes_sample :
  2 <= Size (toyHash 4)
  /\ length (take 24 sample_key) = (Size (toyHash 4) + 2) * Size (toyHash 4)
  /\ Legacy.Sign (Legacy.NewScheme (toyHash 4) (take 3 sample_key))
       {| Legacy.PublicKey := []; Legacy.B := take 24 sample_key |} hello
     = Done ([], {| Legacy.PublicKey := [];
                    Legacy.B := take 24 sample_key |},
             take 24 sample_key, []).
Proof.
  assert (G : 2 <= Size (toyHash 4)) by (vm_compute; lia).
  assert (L : length (take 24 sample_key)
              = (Size (toyHash 4) + 2) * Size (toyHash 4))
    by (vm_compute; reflexivity).
  split; [exact G|]. split; [exact L|].
  apply (proj1 (@legacy_sign_outcomes tape tape_Reader (toyHash 4)
                  (take 3 sample_key) [] (take 24 sample_key) hello G L) []).
  vm_compute. reflexivity.
Defined.

Lemma verify_accepts_iff_sample :
  2 <= Size (toyHash 16)
  /\ length sample_pub = Size (toyHash 16)
  /\ length sample_sig = (Size (toyHash 16) + 2) * Size (toyHash 4)
                         + Size (toyHash 16)
  /\ Verify sample_scheme sample_pub hello sample_sig = Done true.
Proof.
  assert (G : 2 <= Size (toyHash 16)) by (vm_compute; lia).
  assert (V : Verify sample_scheme sample_pub hello sample_sig = Done true)
    by (vm_compute; reflexivity).
  destruct (proj1 (verify_accepts_iff (toyHash 16) (toyHash 4) zeroReader
                     sample_pub hello sample_sig G) V) as (Lp & Ls & _).
  split; [exact G|]. split; [exact Lp|]. split; [exact Ls | exact V].
Defined.
